(** * A shallow embedding of [graph<VertexT, WeightT>] (graph.h)

    The class keeps two private members: [Vertices], a [vector<VertexT>]
    holding the registered vertices in insertion order, and [adjList], an
    [unordered_map] from a source vertex to its [vector] of
    (destination, weight) pairs.

    - [vector<T>] is a [list T]; [push_back] appends at the end.
    - [unordered_map<K, T>] is a [gmap K T]; [operator[]] inserts a
      default-constructed value under a missing key, [at] throws
      [std::out_of_range] on a missing key.
    - [int] is a 32-bit two's complement integer and [size_t] a 64-bit
      unsigned one, both carried in [Z] with the conversions written out.
    - a member function that can throw returns an [outcome]; a mutating
      member function returns its result paired with the new object state;
      a reference parameter that is written to is passed in and returned.
    - [operator==] on [VertexT], and the map's hash and key equality, are
      Leibniz equality decided by [EqDecision]; [operator<] (used by
      [std::set]) and [operator<<] on vertices and weights are parameters. *)

From Stdlib Require Import ZArith Lia.
From stdpp Require Import base decidable option list numbers sorting.
From stdpp Require Import gmap strings pretty.

#[local] Open Scope Z_scope.

(** ** Machine integers *)

Definition INT_MAX : Z := 2 ^ 31 - 1.
Definition INT_MIN : Z := - 2 ^ 31.

(** Conversion of an integer value to [int]: reduction modulo 2^32 into
    [INT_MIN .. INT_MAX]. *)
Definition to_int (z : Z) : Z := (z + 2 ^ 31) mod 2 ^ 32 - 2 ^ 31.

(** Conversion of an integer value to [size_t]: reduction modulo 2^64. *)
Definition to_size_t (z : Z) : Z := z mod 2 ^ 64.

(** [v.size()] of a vector. *)
Definition vsize {A} (v : list A) : Z := Z.of_nat (length v).

(** ** Exceptions *)

Inductive exception : Set := out_of_range.

Inductive outcome (A : Type) : Type :=
  | Returns (a : A)
  | Throws (e : exception).
Arguments Returns {A} a.
Arguments Throws {A} e.

(** ** Output streams *)

(** The output streams of the program: [std::cout] and any other
    [ostream] object; a stream's state is the text written to it so far. *)
Inductive stream : Set := cout | other_stream (id : nat).

#[export] Instance stream_eq_dec : EqDecision stream.
Proof. solve_decision. Defined.

Definition put (o : stream) (text : string) (σ : stream → string)
  : stream → string :=
  λ o', if decide (o' = o) then σ o' +:+ text else σ o'.

Definition endl : string := String (Ascii.ascii_of_nat 10) EmptyString.

Section Graph.

Context {VertexT WeightT : Type} `{Countable VertexT}.

#[local] Abbreviation edge := (VertexT * WeightT)%type.

(** ** The object state *)

Record graph : Type := Graph {
  adjList : gmap VertexT (list edge);
  Vertices : list VertexT
}.

(** The default constructor (and [graph(int)], which ignores its argument). *)
Definition empty_graph : graph := {| adjList := ∅; Vertices := [] |}.

(** ** NumVertices *)

Definition NumVertices (g : graph) : Z := to_int (vsize (Vertices g)).

(** ** _LookupVertex

    [for (int i = 0; i < NumVertices(); ++i) if (Vertices[i] == v) return i;
     return -1;]
    The loop walks the vector from index [i]; [rest] is the part of
    [Vertices] from index [i] on, and [n] the loop bound.  The bound never
    exceeds the vector's size (lemma [NumVertices_le_size]), so the walk
    stays inside the vector and [++i] stays below [INT_MAX]. *)
Fixpoint lookup_from (rest : list VertexT) (i n : Z) (v : VertexT) : Z :=
  match rest with
  | [] => -1
  | x :: rest' =>
      if decide (i < n)
      then if decide (x = v) then i else lookup_from rest' (to_int (i + 1)) n v
      else -1
  end.

Definition _LookupVertex (g : graph) (v : VertexT) : Z :=
  lookup_from (Vertices g) 0 (NumVertices g) v.

(** ** NumEdges

    [int count = 0; for (auto keyVertex : adjList) count += keyVertex.second.size();]
    The compound assignment adds in [size_t] and converts back to [int]. *)
Definition count_step (count : Z) (keyVertex : VertexT * list edge) : Z :=
  to_int (to_size_t (to_size_t count + vsize keyVertex.2)).

Definition NumEdges (g : graph) : Z :=
  foldl count_step 0 (map_to_list (adjList g)).

(** The number of edge records held by an adjacency map. *)
Definition edge_records (m : gmap VertexT (list edge)) : nat :=
  sum_list_with (λ keyVertex, length keyVertex.2) (map_to_list m).

(** ** addVertex *)

(** The range-for over [Vertices] that looks for an element equal to [v]. *)
Fixpoint already_present (vs : list VertexT) (v : VertexT) : bool :=
  match vs with
  | [] => false
  | i :: vs' => if decide (i = v) then true else already_present vs' v
  end.

Definition addVertex (g : graph) (v : VertexT) : bool * graph :=
  if already_present (Vertices g) v
  then (false, g)
  else (true, {| adjList := adjList g; Vertices := Vertices g ++ [v] |}).

(** ** addEdge *)

(** [adjList[from]]: the map after [operator[]], which inserts an empty
    vector when the key is missing. *)
Definition subscript (m : gmap VertexT (list edge)) (k : VertexT)
  : gmap VertexT (list edge) :=
  match m !! k with
  | Some _ => m
  | None => <[k := []]> m
  end.

(** The loop over the edge vector by reference: the first record whose
    destination equals [to] gets the new weight ([Some] of the updated
    vector); [None] when the loop runs to the end. *)
Fixpoint overwrite (es : list edge) (to : VertexT) (weight : WeightT)
  : option (list edge) :=
  match es with
  | [] => None
  | edgeVector :: es' =>
      if decide (edgeVector.1 = to)
      then Some ((edgeVector.1, weight) :: es')
      else cons edgeVector <$> overwrite es' to weight
  end.

Definition addEdge (g : graph) (from to : VertexT) (weight : WeightT)
  : bool * graph :=
  if decide (_LookupVertex g from < 0 ∨ _LookupVertex g to < 0)
  then (false, g)
  else
    let adj := subscript (adjList g) from in
    let es := default [] (adj !! from) in
    match overwrite es to weight with
    | Some es' =>
        (true, {| adjList := <[from := es']> adj; Vertices := Vertices g |})
    | None =>
        (true, {| adjList := <[from := es ++ [(to, weight)]]> adj;
                  Vertices := Vertices g |})
    end.

(** The edge vector of [from] when [addEdge] returns after the endpoint
    check: the records with the weight of [to] overwritten, or with a new
    record at the end when the loop found none. *)
Definition updated_edges (es : list edge) (to : VertexT) (weight : WeightT)
  : list edge :=
  match overwrite es to weight with
  | Some es' => es'
  | None => es ++ [(to, weight)]
  end.

(** ** getWeight *)

(** The loop over the copied edge vector: the weight of the first record
    whose destination equals [to]. *)
Fixpoint find_weight (es : list edge) (to : VertexT) : option WeightT :=
  match es with
  | [] => None
  | e :: es' => if decide (e.1 = to) then Some e.2 else find_weight es' to
  end.

(** [weight] is the reference parameter: its value on entry is passed in and
    its value on exit is returned next to the function's result. *)
Definition getWeight (g : graph) (from to : VertexT) (weight : WeightT)
  : outcome (bool * WeightT) :=
  if decide (_LookupVertex g from < 0 ∨ _LookupVertex g to < 0)
  then Returns (false, weight)
  else
    match adjList g !! from with
    | None => Throws out_of_range
    | Some targetVertex =>
        match find_weight targetVertex to with
        | Some w => Returns (true, w)
        | None => Returns (false, weight)
        end
    end.

(** ** getVertices *)

Definition getVertices (g : graph) : list VertexT := Vertices g.

(** ** neighbors *)

(** [operator<] on [VertexT], as [std::set<VertexT>] uses it. *)
Context (less : VertexT → VertexT → bool).

(** A [std::set<VertexT>] is the list of its elements in iteration order,
    i.e. ascending for [less].  [S.insert(x)] places [x] before the first
    element that is not less than it, unless that element is equivalent to
    [x] (neither is less than the other), in which case nothing changes. *)
Fixpoint set_insert (x : VertexT) (S : list VertexT) : list VertexT :=
  match S with
  | [] => [x]
  | y :: S' =>
      if less y x then y :: set_insert x S'
      else if less x y then x :: y :: S'
      else y :: S'
  end.

(** Iteration order of a [std::set]: each element is less than all
    later ones. *)
Definition ascending (S : list VertexT) : Prop :=
  StronglySorted (λ a b, less a b = true) S.

Definition neighbors (g : graph) (v : VertexT) : outcome (list VertexT) :=
  if decide (_LookupVertex g v < 0)
  then Returns []
  else
    match adjList g !! v with
    | None => Throws out_of_range
    | Some targetVector =>
        Returns (foldl (λ S key, set_insert key.1 S) [] targetVector)
    end.

(** ** dump *)

(** [operator<<] on vertices and weights. *)
Context (show_vertex : VertexT → string) (show_weight : WeightT → string).

(** The text of one edge: ["(" << source << "," << dest << "," << weight << ") "]. *)
Definition edge_text (source : VertexT) (e : edge) : string :=
  "(" +:+ show_vertex source +:+ "," +:+ show_vertex e.1 +:+ ","
      +:+ show_weight e.2 +:+ ") ".

(** The body of the outer loop, for one entry [vertice] of [adjList]. *)
Definition dump_entry (σ : stream → string) (vertice : VertexT * list edge)
  : stream → string :=
  let σ1 := put cout (show_vertex vertice.1 +:+ ": ") σ in
  let σ2 := foldl (λ σ' vector, put cout (edge_text vertice.1 vector) σ')
                  σ1 vertice.2 in
  put cout endl σ2.

(** [dump(output)]: [output] is the reference the caller passes. *)
Definition dump (g : graph) (output : stream) (σ : stream → string)
  : stream → string :=
  foldl dump_entry σ (map_to_list (adjList g)).



(** ** Sequences of mutating calls *)

Inductive op : Type :=
  | AddVertex (v : VertexT)
  | AddEdge (from to : VertexT) (weight : WeightT).

(** The state after one call, and whether the call returned [true]. *)
Definition call (g : graph) (o : op) : bool * graph :=
  match o with
  | AddVertex v => addVertex g v
  | AddEdge from to weight => addEdge g from to weight
  end.

(** The state reached from the empty graph by a sequence of calls. *)
Definition run (ops : list op) : graph :=
  foldl (λ g o, (call g o).2) empty_graph ops.

(** The vertices for which [addVertex] returned [true], in call order, when
    the calls [ops] are made one after the other from state [g]. *)
Fixpoint added_from (g : graph) (ops : list op) : list VertexT :=
  match ops with
  | [] => []
  | AddVertex v :: ops' =>
      if (addVertex g v).1
      then v :: added_from (addVertex g v).2 ops'
      else added_from (addVertex g v).2 ops'
  | AddEdge from to weight :: ops' =>
      added_from (addEdge g from to weight).2 ops'
  end.

(** ** Structural invariants *)

Definition registry_duplicate_free (g : graph) : Prop :=
  NoDup (Vertices g).

Definition edges_within_registry (g : graph) : Prop :=
  ∀ source es, adjList g !! source = Some es →
    source ∈ Vertices g ∧ ∀ e, e ∈ es → e.1 ∈ Vertices g.

Definition one_record_per_destination (g : graph) : Prop :=
  ∀ source es, adjList g !! source = Some es → NoDup es.*1.

Definition invariants (g : graph) : Prop :=
  registry_duplicate_free g ∧ edges_within_registry g
  ∧ one_record_per_destination g.

(** Every adjacency entry holds at least one edge record. *)
Definition entries_nonempty (g : graph) : Prop :=
  ∀ source es, adjList g !! source = Some es → es ≠ [].

(** Some [addEdge] call of the sequence with [source] as its first argument
    returned [true]. *)
Definition succeeded_as_source (ops : list op) (source : VertexT) : Prop :=
  ∃ pre to weight post,
    ops = pre ++ AddEdge source to weight :: post
    ∧ (call (run pre) (AddEdge source to weight)).1 = true.

(** ** The caller's side of [getVertices]

    Vector objects live in a store, by address.  The graph's [Vertices]
    member is the object at [this_Vertices]; [return this->Vertices;] with
    return type [vector<VertexT>] copy-constructs a new vector object, whose
    address is handed to the caller. *)
Definition getVertices_call (h : gmap positive (list VertexT)) (this_Vertices : positive)
  : positive * gmap positive (list VertexT) :=
  let result := fresh (dom h) in
  (result, <[result := default [] (h !! this_Vertices)]> h).

(** Any sequence of changes the caller makes to the vector object at [a]. *)
Definition mutate (a : positive) (changes : list (list VertexT → list VertexT))
    (h : gmap positive (list VertexT)) : gmap positive (list VertexT) :=
  foldl (λ h' f, alter f a h') h changes.

(** The graph whose [Vertices] member is the object at [this_Vertices]. *)
Definition graph_in (h : gmap positive (list VertexT)) (this_Vertices : positive)
    (adj : gmap VertexT (list edge)) : graph :=
  {| adjList := adj; Vertices := default [] (h !! this_Vertices) |}.

End Graph.

Arguments graph VertexT WeightT {_ _}.
Arguments op VertexT WeightT : clear implicits.

(** ** A [graph<string, int>] and a [graph<int, int>]

    The state after [addVertex("A")], [addVertex("B")], [addVertex("A")],
    [addEdge("A", "B", 5)] on an empty [graph<string, int>]. *)
Definition two_vertices_one_edge : graph string Z :=
  run [AddVertex "A"; AddVertex "B"; AddVertex "A"; AddEdge "A" "B" 5%Z].

(** A [graph<int, int>] holding the vertices [0 .. n-1] and no edge. *)
Definition numbered_vertices (n : Z) : graph Z Z :=
  {| adjList := ∅; Vertices := seqZ 0 n |}.

(** ** The second constructor, and edges as pairs *)

Section Further.

Context {VertexT WeightT : Type} `{Countable VertexT}.

(** [graph(int numVertices) { }]: the body is empty, both members are
    default-constructed and the argument is not used. *)
Definition graph_of_capacity (numVertices : Z) : graph VertexT WeightT :=
  {| adjList := ∅; Vertices := [] |}.

(** The edge vector of [from] holds a record with destination [to]. *)
Definition has_edge (g : graph VertexT WeightT) (from to : VertexT) : Prop :=
  ∃ es, adjList g !! from = Some es ∧ to ∈ es.*1.

(** Some [addEdge(from, to, _)] call of the sequence returned [true]. *)
Definition edge_added (ops : list (op VertexT WeightT)) (from to : VertexT)
  : Prop :=
  ∃ pre weight post,
    ops = pre ++ AddEdge from to weight :: post
    ∧ (call (run pre) (AddEdge from to weight)).1 = true.

(** Nothing registered in [g] is missing from [g']: the registry of [g] is
    an initial segment of that of [g'], every adjacency key of [g] is one of
    [g'], and the destinations recorded for it in [g] are an initial segment
    of those recorded in [g']. *)
Definition grown_from (g g' : graph VertexT WeightT) : Prop :=
  Vertices g `prefix_of` Vertices g'
  ∧ ∀ source es, adjList g !! source = Some es →
      ∃ es', adjList g' !! source = Some es' ∧ es.*1 `prefix_of` es'.*1.

End Further.

(** * Properties *)

(** Closed decidable goals, by evaluation of the decision procedure. *)
#[local] Ltac by_evaluation := apply (bool_decide_unpack _); vm_compute; exact I.

(** ** Integer conversions *)

Lemma to_int_range (z : Z) : INT_MIN ≤ to_int z ≤ INT_MAX.
Proof.
  unfold to_int, INT_MIN, INT_MAX.
  change (2 ^ 31) with 2147483648. change (2 ^ 32) with 4294967296.
  pose proof (Z.mod_pos_bound (z + 2147483648) 4294967296). lia.
Qed.

Lemma to_int_id (z : Z) : INT_MIN ≤ z ≤ INT_MAX → to_int z = z.
Proof.
  unfold to_int, INT_MIN, INT_MAX.
  change (2 ^ 31) with 2147483648. change (2 ^ 32) with 4294967296.
  intros Hz. rewrite Z.mod_small by lia. lia.
Qed.

(** [to_int] only looks at its argument modulo 2^32. *)
Lemma to_int_congr (a b : Z) : a mod 2 ^ 32 = b mod 2 ^ 32 → to_int a = to_int b.
Proof.
  intros Hab. unfold to_int.
  rewrite <- (Zplus_mod_idemp_l a), <- (Zplus_mod_idemp_l b), Hab. done.
Qed.

Lemma to_int_mod (z : Z) : to_int z mod 2 ^ 32 = z mod 2 ^ 32.
Proof.
  unfold to_int.
  rewrite Zminus_mod_idemp_l.
  f_equal. lia.
Qed.

Lemma to_size_t_mod (z : Z) : to_size_t z mod 2 ^ 32 = z mod 2 ^ 32.
Proof.
  unfold to_size_t.
  change (2 ^ 64) with (2 ^ 32 * 2 ^ 32).
  rewrite Z.rem_mul_r by done.
  rewrite Z.add_mod, Z.mul_comm, Z.mod_mul, Z.add_0_r, !Z.mod_mod by done.
  done.
Qed.

Lemma to_int_idemp (z : Z) : to_int (to_int z) = to_int z.
Proof. apply to_int_congr, to_int_mod. Qed.

Section Properties.

Context {VertexT WeightT : Type} `{Countable VertexT}.

#[local] Abbreviation edge := (VertexT * WeightT)%type.
#[local] Abbreviation graph := (graph VertexT WeightT).

Implicit Types (g : graph) (v from to : VertexT) (w weight : WeightT).
Implicit Types (es : list edge) (vs rest : list VertexT).

(** ** The vertex registry *)

Lemma already_present_elem_of vs v : already_present vs v = true ↔ v ∈ vs.
Proof.
  induction vs as [|x vs IH]; simpl.
  - split; [done | by intros ?%elem_of_nil].
  - rewrite elem_of_cons. case_decide as Hx.
    + split; [intros _; by left | done].
    + rewrite IH. split; [by right | by intros [?|?]].
Qed.

Lemma already_present_false vs v : already_present vs v = false ↔ v ∉ vs.
Proof.
  rewrite <- already_present_elem_of. by destruct (already_present vs v).
Qed.

Lemma addVertex_fresh g v :
  v ∉ Vertices g →
  addVertex g v = (true, {| adjList := adjList g; Vertices := Vertices g ++ [v] |}).
Proof.
  intros Hv%already_present_false. unfold addVertex. by rewrite Hv.
Qed.

Lemma addVertex_known g v : v ∈ Vertices g → addVertex g v = (false, g).
Proof.
  intros Hv%already_present_elem_of. unfold addVertex. by rewrite Hv.
Qed.

Lemma NumVertices_small g :
  vsize (Vertices g) ≤ INT_MAX → NumVertices g = vsize (Vertices g).
Proof.
  intros Hle. apply to_int_id. unfold vsize, INT_MIN in *. lia.
Qed.

(** The converted size never exceeds the size itself. *)
Lemma NumVertices_le_size g : NumVertices g ≤ vsize (Vertices g).
Proof.
  unfold NumVertices.
  destruct (decide (vsize (Vertices g) ≤ INT_MAX)) as [Hle|Hgt].
  - rewrite to_int_id; [done|]. unfold vsize, INT_MIN in *. lia.
  - pose proof (to_int_range (vsize (Vertices g))). lia.
Qed.

(** ** _LookupVertex *)

(** The loop exits at once when the index is not below the bound. *)
Lemma lookup_from_bound rest i n v : n ≤ i → lookup_from rest i n v = -1.
Proof. intros Hle. destruct rest; simpl; [done|]. case_decide; [lia | done]. Qed.

(** A vertex that is not in the vector is not found. *)
Lemma lookup_from_absent rest i n v : v ∉ rest → lookup_from rest i n v = -1.
Proof.
  revert i. induction rest as [|x rest IH]; intros i Hv; simpl; [done|].
  apply not_elem_of_cons in Hv as [Hne Hv].
  case_decide; [|done]. case_decide; [congruence|]. by apply IH.
Qed.

(** Within the [int] range, a vertex that is in the vector is found, at a
    non-negative index that holds it. *)
Lemma lookup_from_present rest i n v :
  0 ≤ i → i + vsize rest ≤ n → n ≤ INT_MAX → v ∈ rest →
  ∃ k : nat, lookup_from rest i n v = i + Z.of_nat k ∧ rest !! k = Some v.
Proof.
  revert i. induction rest as [|x rest IH]; intros i Hi Hn Hmax Hv.
  { by apply elem_of_nil in Hv. }
  unfold vsize in *. simpl in *. case_decide; [|lia].
  case_decide as Hx.
  - exists 0%nat. split; [lia | by rewrite Hx].
  - apply elem_of_cons in Hv as [->|Hv]; [done|].
    rewrite to_int_id by (unfold INT_MIN, INT_MAX in *; lia).
    destruct (IH (i + 1)) as (k & Hk & Hlook); [lia.. | done |].
    exists (S k). split; [lia | done].
Qed.

Lemma _LookupVertex_absent g v : v ∉ Vertices g → _LookupVertex g v = -1.
Proof. apply lookup_from_absent. Qed.

Lemma _LookupVertex_present g v :
  vsize (Vertices g) ≤ INT_MAX → v ∈ Vertices g → 0 ≤ _LookupVertex g v.
Proof.
  intros Hmax Hv. unfold _LookupVertex.
  destruct (lookup_from_present (Vertices g) 0 (NumVertices g) v)
    as (k & -> & _); rewrite ?NumVertices_small; try done; unfold vsize; lia.
Qed.

(** A non-negative result always names a registered vertex. *)
Lemma _LookupVertex_nonneg_elem_of g v : 0 ≤ _LookupVertex g v → v ∈ Vertices g.
Proof.
  intros Hfound. destruct (decide (v ∈ Vertices g)) as [|Hv]; [done|].
  rewrite (_LookupVertex_absent _ _ Hv) in Hfound. lia.
Qed.

(** ** addEdge on unregistered endpoints *)

Lemma addEdge_unregistered g from to weight :
  from ∉ Vertices g ∨ to ∉ Vertices g → addEdge g from to weight = (false, g).
Proof.
  intros Hun. unfold addEdge. case_decide as Hlook; [done|].
  destruct Hun as [Hv|Hv]; apply (_LookupVertex_absent g) in Hv; lia.
Qed.

(** ** The edge vector of one source *)

Lemma overwrite_Some_find es to weight es' :
  overwrite es to weight = Some es' → find_weight es' to = Some weight.
Proof.
  revert es'. induction es as [|e es IH]; intros es' Hov; simpl in *; [done|].
  case_decide as He.
  - injection Hov as <-. simpl. by rewrite decide_True.
  - destruct (overwrite es to weight) as [es1|]; simplify_eq/=.
    rewrite decide_False by done. by apply IH.
Qed.

Lemma overwrite_None_find es to weight :
  overwrite es to weight = None → find_weight (es ++ [(to, weight)]) to = Some weight.
Proof.
  induction es as [|e es IH]; intros Hov; simpl in *.
  - by rewrite decide_True.
  - case_decide; [done|]. apply IH.
    by destruct (overwrite es to weight).
Qed.

(** Overwriting keeps the destinations, hence the number of records. *)
Lemma overwrite_Some_fst es to weight es' :
  overwrite es to weight = Some es' → es'.*1 = es.*1.
Proof.
  revert es'. induction es as [|e es IH]; intros es' Hov; simpl in *; [done|].
  case_decide.
  - by injection Hov as <-.
  - destruct (overwrite es to weight) as [es1|]; simplify_eq/=.
    f_equal. by apply IH.
Qed.

Lemma overwrite_Some_length es to weight es' :
  overwrite es to weight = Some es' → length es' = length es.
Proof.
  intros Hov%overwrite_Some_fst.
  by rewrite <- (length_fmap fst es'), Hov, length_fmap.
Qed.

(** The loop finds a record exactly when one has the destination. *)
Lemma overwrite_None_iff es to weight :
  overwrite es to weight = None ↔ to ∉ es.*1.
Proof.
  induction es as [|e es IH]; simpl.
  - split; [intros _; apply not_elem_of_nil | done].
  - rewrite not_elem_of_cons. case_decide as He.
    + split; [done | intros [Hne _]; by destruct Hne].
    + destruct (overwrite es to weight); simpl.
      * split; [done | intros [_ Hto]; by apply IH in Hto].
      * split; [intros _; split; [done | by apply IH] | done].
Qed.

Lemma find_weight_None_iff es to : find_weight es to = None ↔ to ∉ es.*1.
Proof.
  induction es as [|e es IH]; simpl.
  - split; [intros _; apply not_elem_of_nil | done].
  - rewrite not_elem_of_cons. case_decide as He.
    + split; [done | intros [Hne _]; by destruct Hne].
    + rewrite IH. split; [done | by intros [_ ?]].
Qed.

(** After a first record for [to] exists, a second overwrite finds it. *)
Lemma overwrite_is_Some es to weight :
  to ∈ es.*1 → is_Some (overwrite es to weight).
Proof.
  intros Hto. destruct (overwrite es to weight) eqn:Hov; [done|].
  by apply overwrite_None_iff in Hov.
Qed.

(** ** The adjacency map under [operator[]] *)

Lemma subscript_lookup (m : gmap VertexT (list edge)) k :
  subscript m k !! k = Some (default [] (m !! k)).
Proof.
  unfold subscript. destruct (m !! k) eqn:Hk; simpl; [done|].
  by rewrite lookup_insert_eq.
Qed.

Lemma subscript_lookup_ne (m : gmap VertexT (list edge)) k k' :
  k ≠ k' → subscript m k !! k' = m !! k'.
Proof.
  intros Hne. unfold subscript. destruct (m !! k); [done|].
  by rewrite lookup_insert_ne.
Qed.

Lemma insert_subscript (m : gmap VertexT (list edge)) k es :
  <[k := es]> (subscript m k) = <[k := es]> m.
Proof.
  unfold subscript. destruct (m !! k); [done|]. by rewrite insert_insert_eq.
Qed.

(** ** addEdge on registered endpoints *)

Lemma addEdge_found g from to weight :
  0 ≤ _LookupVertex g from → 0 ≤ _LookupVertex g to →
  addEdge g from to weight =
    (true, {| adjList := <[from := updated_edges (default [] (adjList g !! from)) to weight]>
                           (adjList g);
              Vertices := Vertices g |}).
Proof.
  intros Hfrom Hto. unfold addEdge, updated_edges.
  case_decide as Hlook; [lia|].
  rewrite subscript_lookup. simpl.
  destruct (overwrite _ to weight); by rewrite insert_subscript.
Qed.

Lemma addEdge_not_found g from to weight :
  _LookupVertex g from < 0 ∨ _LookupVertex g to < 0 →
  addEdge g from to weight = (false, g).
Proof. intros Hlook. unfold addEdge. by rewrite decide_True. Qed.

Lemma updated_edges_find es to weight :
  find_weight (updated_edges es to weight) to = Some weight.
Proof.
  unfold updated_edges. destruct (overwrite es to weight) eqn:Hov.
  - by apply overwrite_Some_find in Hov.
  - by apply overwrite_None_find.
Qed.

Lemma updated_edges_nonempty es to weight : updated_edges es to weight ≠ [].
Proof.
  intros Hnil. pose proof (updated_edges_find es to weight) as Hfind.
  by rewrite Hnil in Hfind.
Qed.

Lemma updated_edges_fst es to weight :
  (updated_edges es to weight).*1 = if decide (to ∈ es.*1) then es.*1 else es.*1 ++ [to].
Proof.
  unfold updated_edges. destruct (overwrite es to weight) eqn:Hov.
  - rewrite decide_True.
    + by apply overwrite_Some_fst in Hov.
    + destruct (decide (to ∈ es.*1)) as [|Hno]; [done|].
      apply (overwrite_None_iff es to weight) in Hno. congruence.
  - rewrite decide_False by (by apply overwrite_None_iff in Hov).
    by rewrite fmap_app.
Qed.

(** A second update for the same destination keeps the number of records. *)
Lemma updated_edges_twice_length es to w1 w2 :
  length (updated_edges (updated_edges es to w1) to w2)
  = length (updated_edges es to w1).
Proof.
  rewrite <- !(length_fmap fst).
  rewrite (updated_edges_fst (updated_edges es to w1)).
  rewrite decide_True; [done|].
  rewrite updated_edges_fst. case_decide; [done|].
  apply elem_of_app. right. apply list_elem_of_singleton. done.
Qed.

(** ** NumEdges *)

Lemma count_step_to_int (c : Z) (keyVertex : VertexT * list edge) :
  count_step (to_int c) keyVertex = to_int (c + vsize keyVertex.2).
Proof.
  unfold count_step. apply to_int_congr.
  rewrite to_size_t_mod.
  rewrite Z.add_mod, to_size_t_mod, to_int_mod by done.
  by rewrite <- Z.add_mod by done.
Qed.

Lemma foldl_count_step (c : Z) (l : list (VertexT * list edge)) :
  foldl count_step (to_int c) l
  = to_int (c + Z.of_nat (sum_list_with (λ keyVertex, length keyVertex.2) l)).
Proof.
  revert c. induction l as [|kv l IH]; intros c; simpl.
  - f_equal. lia.
  - rewrite count_step_to_int, IH. f_equal. unfold vsize. lia.
Qed.

(** [NumEdges] is the number of edge records, converted to [int]. *)
Lemma NumEdges_edge_records g :
  NumEdges g = to_int (Z.of_nat (edge_records (adjList g))).
Proof.
  unfold NumEdges, edge_records.
  change 0 with (to_int 0) at 1. by rewrite foldl_count_step.
Qed.

Lemma edge_records_insert (m : gmap VertexT (list edge)) k es :
  (edge_records (<[k := es]> m) + length (default [] (m !! k)))%nat
  = (edge_records m + length es)%nat.
Proof.
  unfold edge_records.
  rewrite <- insert_delete_eq.
  rewrite map_to_list_insert by apply lookup_delete_eq.
  destruct (m !! k) as [es0|] eqn:Hk; simpl.
  - rewrite <- (map_to_list_delete m k es0 Hk). simpl. lia.
  - rewrite delete_id by done. lia.
Qed.

Lemma edge_records_insert_same_length (m : gmap VertexT (list edge)) k es es' :
  m !! k = Some es → length es' = length es →
  edge_records (<[k := es']> m) = edge_records m.
Proof.
  intros Hk Hlen. pose proof (edge_records_insert m k es') as Hins.
  rewrite Hk in Hins. simpl in Hins. lia.
Qed.

(** ** One call at a time *)

Lemma addEdge_cases g from to weight :
  addEdge g from to weight = (false, g)
  ∨ (from ∈ Vertices g ∧ to ∈ Vertices g
     ∧ addEdge g from to weight =
         (true, {| adjList := <[from := updated_edges (default [] (adjList g !! from))
                                                      to weight]> (adjList g);
                   Vertices := Vertices g |})).
Proof.
  destruct (decide (_LookupVertex g from < 0 ∨ _LookupVertex g to < 0)) as [Hl|Hl].
  - left. by apply addEdge_not_found.
  - right. split_and!.
    + apply _LookupVertex_nonneg_elem_of. lia.
    + apply _LookupVertex_nonneg_elem_of. lia.
    + apply addEdge_found; lia.
Qed.

Lemma run_snoc (ops : list (op VertexT WeightT)) o :
  run (ops ++ [o]) = (call (run ops) o).2.
Proof. unfold run. by rewrite foldl_app. Qed.

Lemma addVertex_invariants g v : invariants g → invariants (addVertex g v).2.
Proof.
  intros (Hnd & Hreg & Hone).
  destruct (decide (v ∈ Vertices g)) as [Hv|Hv].
  { by rewrite addVertex_known. }
  rewrite addVertex_fresh by done. split_and!; simpl.
  - unfold registry_duplicate_free. simpl.
    apply NoDup_app. split_and!; [done | | apply NoDup_singleton].
    intros x Hx ->%list_elem_of_singleton. done.
  - intros source es Hs. simpl in *.
    destruct (Hreg source es Hs) as [Hsrc Hdst].
    split; [set_solver|]. intros e He. specialize (Hdst e He). set_solver.
  - done.
Qed.

Lemma addEdge_invariants g from to weight :
  invariants g → invariants (addEdge g from to weight).2.
Proof.
  intros (Hnd & Hreg & Hone).
  destruct (addEdge_cases g from to weight) as [->|(Hfrom & Hto & ->)]; [done|].
  assert (∀ e, e ∈ default [] (adjList g !! from) → e.1 ∈ Vertices g) as Hold.
  { destruct (adjList g !! from) as [es0|] eqn:Hes0; simpl.
    - by apply (Hreg from es0).
    - by intros e ?%elem_of_nil. }
  assert (NoDup (default [] (adjList g !! from)).*1) as Hnd0.
  { destruct (adjList g !! from) as [es0|] eqn:Hes0; simpl.
    - by apply (Hone from es0).
    - apply NoDup_nil_2. }
  split_and!; [done | |].
  - intros source es. simpl. rewrite lookup_insert. case_decide as Hsrc.
    + subst source. intros [= <-]. split; [done|]. intros e He.
      assert (e.1 ∈ (updated_edges (default [] (adjList g !! from)) to weight).*1)
        as Hfst by (by apply list_elem_of_fmap_2).
      rewrite updated_edges_fst in Hfst.
      assert (e.1 ∈ (default [] (adjList g !! from)).*1 ∨ e.1 = to) as [Hin | ->].
      { case_decide; [by left|]. apply elem_of_app in Hfst as [?|?%list_elem_of_singleton]; auto. }
      * apply list_elem_of_fmap in Hin as (e' & -> & He'). by apply Hold.
      * done.
    + apply Hreg.
  - intros source es. simpl. rewrite lookup_insert. case_decide as Hsrc.
    + intros [= <-]. rewrite updated_edges_fst. case_decide as Hin; [done|].
      apply NoDup_app. split_and!; [done | | apply NoDup_singleton].
      intros x Hx ->%list_elem_of_singleton. done.
    + apply Hone.
Qed.

Lemma call_invariants g (o : op VertexT WeightT) :
  invariants g → invariants (call g o).2.
Proof.
  destruct o; simpl; [apply addVertex_invariants | apply addEdge_invariants].
Qed.

Lemma empty_graph_invariants : invariants (@empty_graph VertexT WeightT _ _).
Proof.
  split_and!.
  - apply NoDup_nil_2.
  - intros source es Hs. simpl in Hs. by rewrite lookup_empty in Hs.
  - intros source es Hs. simpl in Hs. by rewrite lookup_empty in Hs.
Qed.

(** ** Adjacency entries *)

Lemma addVertex_adjList g v : adjList (addVertex g v).2 = adjList g.
Proof. unfold addVertex. by destruct (already_present _ _). Qed.

Lemma addEdge_entries_nonempty g from to weight :
  entries_nonempty g → entries_nonempty (addEdge g from to weight).2.
Proof.
  intros Hne.
  destruct (addEdge_cases g from to weight) as [->|(_ & _ & ->)]; [done|].
  intros source es. simpl. rewrite lookup_insert. case_decide.
  - intros [= <-]. apply updated_edges_nonempty.
  - apply Hne.
Qed.

Lemma call_entries_nonempty g (o : op VertexT WeightT) :
  entries_nonempty g → entries_nonempty (call g o).2.
Proof.
  destruct o; simpl.
  - unfold entries_nonempty. by rewrite addVertex_adjList.
  - apply addEdge_entries_nonempty.
Qed.

(** A call never removes an adjacency entry, and creates one only for the
    source of an [addEdge] that returns [true]. *)
Lemma call_entry g (o : op VertexT WeightT) source :
  is_Some (adjList (call g o).2 !! source)
  ↔ is_Some (adjList g !! source)
    ∨ ∃ to weight, o = AddEdge source to weight ∧ (call g o).1 = true.
Proof.
  destruct o as [v|from to weight]; simpl.
  - rewrite addVertex_adjList. split; [by left | intros [?|(? & ? & ? & _)]; done].
  - destruct (addEdge_cases g from to weight) as [Heq|(_ & _ & Heq)]; rewrite Heq; simpl.
    + split; [by left | intros [?|(? & ? & _ & ?)]; done].
    + rewrite lookup_insert. case_decide as Hsrc.
      * subst. split; [|done]. intros _. right. by exists to, weight.
      * split; [by left|]. intros [?|(? & ? & [= -> _ _] & _)]; done.
Qed.

(** ** getWeight after addEdge *)

Lemma _LookupVertex_same_registry g g' v :
  Vertices g' = Vertices g → _LookupVertex g' v = _LookupVertex g v.
Proof. intros Heq. unfold _LookupVertex, NumVertices. by rewrite Heq. Qed.

Lemma addEdge_Vertices g from to weight :
  Vertices (addEdge g from to weight).2 = Vertices g.
Proof. by destruct (addEdge_cases g from to weight) as [->|(_ & _ & ->)]. Qed.

Lemma getWeight_entry g from to weight es :
  0 ≤ _LookupVertex g from → 0 ≤ _LookupVertex g to →
  adjList g !! from = Some es →
  getWeight g from to weight =
    match find_weight es to with
    | Some w => Returns (true, w)
    | None => Returns (false, weight)
    end.
Proof.
  intros Hfrom Hto Hes. unfold getWeight.
  case_decide; [lia|]. by rewrite Hes.
Qed.

Lemma getWeight_after_addEdge g from to w weight :
  0 ≤ _LookupVertex g from → 0 ≤ _LookupVertex g to →
  getWeight (addEdge g from to w).2 from to weight = Returns (true, w).
Proof.
  intros Hfrom Hto.
  rewrite (getWeight_entry _ _ _ _ (updated_edges (default [] (adjList g !! from)) to w)).
  - by rewrite updated_edges_find.
  - by rewrite (_LookupVertex_same_registry g) by apply addEdge_Vertices.
  - by rewrite (_LookupVertex_same_registry g) by apply addEdge_Vertices.
  - rewrite addEdge_found by done. simpl. apply lookup_insert_eq.
Qed.

(** ** The claims about [addVertex] and [addEdge] *)

(** C4 (as amended).  When [v] is not in the graph, [addVertex] returns
    [true] and appends [v] at the end of the registry; [NumVertices] then
    grows by exactly one provided the registry held fewer than [INT_MAX]
    vertices (the count is the vector's size converted to [int]).  When [v]
    is in the graph already, [addVertex] returns [false] and the state, hence
    [NumVertices], is unchanged. *)
Theorem addVertex_registers_once g v :
  (v ∉ Vertices g →
     addVertex g v
       = (true, {| adjList := adjList g; Vertices := Vertices g ++ [v] |})
     ∧ (vsize (Vertices g) < INT_MAX →
        NumVertices (addVertex g v).2 = NumVertices g + 1))
  ∧ (v ∈ Vertices g →
     addVertex g v = (false, g)
     ∧ NumVertices (addVertex g v).2 = NumVertices g).
Proof.
  split.
  - intros Hv. rewrite addVertex_fresh by done. split; [done|].
    intros Hmax. unfold NumVertices, vsize in *. simpl.
    rewrite length_app. simpl.
    rewrite !to_int_id by (unfold INT_MIN, INT_MAX in *; lia). lia.
  - intros Hv. by rewrite addVertex_known.
Qed.

(** C6.  When [from] or [to] is not a registered vertex, [addEdge] returns
    [false] and leaves the whole state as it was: the adjacency map gets no
    new entry, and [NumEdges] and [NumVertices] keep their values. *)
Theorem addEdge_unknown_vertex g from to weight :
  from ∉ Vertices g ∨ to ∉ Vertices g →
  addEdge g from to weight = (false, g)
  ∧ adjList (addEdge g from to weight).2 = adjList g
  ∧ NumEdges (addEdge g from to weight).2 = NumEdges g
  ∧ NumVertices (addEdge g from to weight).2 = NumVertices g.
Proof. intros Hun. by rewrite addEdge_unregistered. Qed.

(** C7 (as amended).  In a graph of at most [INT_MAX] vertices, for
    registered [from] and [to] (equal or not) and any weight, [addEdge]
    returns [true], and [getWeight] on the resulting state returns [true]
    with that weight, whatever the output parameter held before. *)
Theorem addEdge_then_getWeight g from to w :
  vsize (Vertices g) ≤ INT_MAX → from ∈ Vertices g → to ∈ Vertices g →
  (addEdge g from to w).1 = true
  ∧ ∀ weight, getWeight (addEdge g from to w).2 from to weight = Returns (true, w).
Proof.
  intros Hmax Hfrom%(_LookupVertex_present g)  Hto%(_LookupVertex_present g); try done.
  split.
  - by rewrite addEdge_found.
  - intros weight. by apply getWeight_after_addEdge.
Qed.

(** C5 (as amended).  For registered [from] and [to], a second [addEdge]
    for the same pair leaves [NumEdges], and the number of edge records, at
    their values after the first call; and in a graph of at most [INT_MAX]
    vertices [getWeight] then returns [true] with the second weight. *)
Theorem addEdge_twice_overwrites g from to w1 w2 :
  from ∈ Vertices g → to ∈ Vertices g →
  let g1 := (addEdge g from to w1).2 in
  let g2 := (addEdge g1 from to w2).2 in
  NumEdges g2 = NumEdges g1
  ∧ edge_records (adjList g2) = edge_records (adjList g1)
  ∧ (vsize (Vertices g) ≤ INT_MAX →
     ∀ weight, getWeight g2 from to weight = Returns (true, w2)).
Proof.
  intros Hfrom Hto g1 g2.
  assert (Vertices g1 = Vertices g) as HV by apply addEdge_Vertices.
  assert (edge_records (adjList g2) = edge_records (adjList g1)) as Hrec.
  { subst g2 g1.
    destruct (decide (_LookupVertex g from < 0 ∨ _LookupVertex g to < 0)) as [Hl|Hl].
    - rewrite (addEdge_not_found g) by done. simpl.
      by rewrite (addEdge_not_found g).
    - rewrite (addEdge_found g) by lia. simpl.
      rewrite addEdge_found
        by (rewrite (_LookupVertex_same_registry g) by done; lia).
      simpl. rewrite lookup_insert_eq. simpl.
      apply (edge_records_insert_same_length _ _
               (updated_edges (default [] (adjList g !! from)) to w1)).
      + apply lookup_insert_eq.
      + apply updated_edges_twice_length. }
  split_and!; [|done|].
  - by rewrite !NumEdges_edge_records, Hrec.
  - intros Hmax weight. subst g2. apply getWeight_after_addEdge.
    + rewrite (_LookupVertex_same_registry g) by done. by apply _LookupVertex_present.
    + rewrite (_LookupVertex_same_registry g) by done. by apply _LookupVertex_present.
Qed.

(** ** Reachable states *)

Lemma run_invariants (ops : list (op VertexT WeightT)) : invariants (run ops).
Proof.
  induction ops as [|o ops IH] using rev_ind.
  - apply empty_graph_invariants.
  - rewrite run_snoc. by apply call_invariants.
Qed.

Lemma run_entries_nonempty (ops : list (op VertexT WeightT)) :
  entries_nonempty (run ops).
Proof.
  induction ops as [|o ops IH] using rev_ind.
  - intros source es Hs. unfold run in Hs. simpl in Hs.
    by rewrite lookup_empty in Hs.
  - rewrite run_snoc. by apply call_entries_nonempty.
Qed.

Lemma run_entry_iff (ops : list (op VertexT WeightT)) source :
  is_Some (adjList (run ops) !! source) ↔ succeeded_as_source ops source.
Proof.
  induction ops as [|o ops IH] using rev_ind.
  - unfold run. simpl. rewrite lookup_empty. split.
    + by intros ?%is_Some_None.
    + intros (pre & to & weight & post & Heq & _). by destruct pre.
  - rewrite run_snoc, call_entry, IH. split.
    + intros [(pre & to & weight & post & -> & Hcall)|(to & weight & -> & Hcall)].
      * exists pre, to, weight, (post ++ [o]). split; [|done].
        by rewrite <- app_assoc.
      * exists ops, to, weight, []. done.
    + intros (pre & to & weight & post & Heq & Hcall).
      destruct post as [|p post _] using rev_ind.
      * apply app_inj_tail in Heq as [-> ->]. right. by exists to, weight.
      * rewrite app_comm_cons, app_assoc in Heq.
        apply app_inj_tail in Heq as [-> ->]. left.
        by exists pre, to, weight, post.
Qed.

(** C8.  Every state reached from the empty graph by a sequence of
    [addVertex] and [addEdge] calls satisfies the three structural
    invariants: the registry has no duplicates; every adjacency key and
    every destination of an edge record is in the registry; and the edge
    vector of a source holds at most one record per destination. *)
Theorem reachable_states_invariants (ops : list (op VertexT WeightT)) :
  registry_duplicate_free (run ops)
  ∧ edges_within_registry (run ops)
  ∧ one_record_per_destination (run ops).
Proof. apply run_invariants. Qed.

(** C10.  In every reachable state each key of the adjacency map has a
    non-empty edge vector, and a vertex is a key exactly when some [addEdge]
    call with that vertex as source has returned [true]. *)
Theorem adjacency_entries_come_from_edges (ops : list (op VertexT WeightT)) source :
  entries_nonempty (run ops)
  ∧ (is_Some (adjList (run ops) !! source) ↔ succeeded_as_source ops source).
Proof. split; [apply run_entries_nonempty | apply run_entry_iff]. Qed.

(** ** getWeight and neighbors on a source without an adjacency entry *)

Lemma getWeight_unregistered g from to weight :
  from ∉ Vertices g ∨ to ∉ Vertices g →
  getWeight g from to weight = Returns (false, weight).
Proof.
  intros Hun. unfold getWeight. case_decide as Hlook; [done|].
  destruct Hun as [Hv|Hv]; apply (_LookupVertex_absent g) in Hv; lia.
Qed.

(** Both vertices found, but [from] was never the source of an edge:
    [adjList.at(from)] throws. *)
Lemma getWeight_no_entry g from to weight :
  0 ≤ _LookupVertex g from → 0 ≤ _LookupVertex g to →
  adjList g !! from = None →
  getWeight g from to weight = Throws out_of_range.
Proof.
  intros Hfrom Hto Hnone. unfold getWeight.
  case_decide; [lia|]. by rewrite Hnone.
Qed.

(** Both vertices found and [from] has an entry without a record for [to]:
    [false], and the output parameter keeps its value. *)
Lemma getWeight_no_record g from to weight es :
  0 ≤ _LookupVertex g from → 0 ≤ _LookupVertex g to →
  adjList g !! from = Some es → to ∉ es.*1 →
  getWeight g from to weight = Returns (false, weight).
Proof.
  intros Hfrom Hto Hes Hno%find_weight_None_iff.
  rewrite (getWeight_entry _ _ _ _ es) by done. by rewrite Hno.
Qed.

(** ** neighbors *)

Section Neighbors.

Context (less : VertexT → VertexT → bool).

Lemma neighbors_unregistered g v : v ∉ Vertices g → neighbors less g v = Returns [].
Proof.
  intros Hv%(_LookupVertex_absent g). unfold neighbors.
  rewrite decide_True; [done | lia].
Qed.

(** The vertex is found, but was never the source of an edge:
    [adjList.at(v)] throws. *)
Lemma neighbors_no_entry g v :
  0 ≤ _LookupVertex g v → adjList g !! v = None →
  neighbors less g v = Throws out_of_range.
Proof.
  intros Hv Hnone. unfold neighbors. case_decide; [lia|]. by rewrite Hnone.
Qed.

Lemma neighbors_entry g v es :
  0 ≤ _LookupVertex g v → adjList g !! v = Some es →
  neighbors less g v = Returns (foldl (λ S key, set_insert less key.1 S) [] es).
Proof.
  intros Hv Hes. unfold neighbors. case_decide; [lia|]. by rewrite Hes.
Qed.

(** [operator<] is a strict total order. *)
Hypothesis less_irrefl : ∀ x, less x x = false.
Hypothesis less_trans : ∀ x y z, less x y = true → less y z = true → less x z = true.
Hypothesis less_total : ∀ x y, less x y = false → less y x = false → x = y.

Lemma set_insert_elem_of x y S : y ∈ set_insert less x S ↔ y = x ∨ y ∈ S.
Proof.
  induction S as [|z S IH]; simpl.
  - rewrite list_elem_of_singleton, elem_of_nil. tauto.
  - destruct (less z x) eqn:Hzx; [|destruct (less x z) eqn:Hxz].
    + rewrite !elem_of_cons, IH. tauto.
    + rewrite !elem_of_cons. tauto.
    + rewrite (less_total x z) by done. rewrite elem_of_cons. tauto.
Qed.

Lemma set_insert_ascending x S : ascending less S → ascending less (set_insert less x S).
Proof.
  unfold ascending. induction S as [|z S IH]; simpl; intros Hs.
  - repeat constructor.
  - apply StronglySorted_cons in Hs as [Hall Hs].
    destruct (less z x) eqn:Hzx; [|destruct (less x z) eqn:Hxz].
    + apply StronglySorted_cons. split; [|by apply IH].
      apply Forall_forall. intros y [->|Hy]%set_insert_elem_of; [done|].
      by apply (proj1 (Forall_forall _ _) Hall).
    + apply StronglySorted_cons. split.
      * constructor; [done|]. apply Forall_forall. intros y Hy.
        apply (less_trans x z y); [done|].
        by apply (proj1 (Forall_forall _ _) Hall).
      * by apply StronglySorted_cons.
    + by apply StronglySorted_cons.
Qed.

Lemma insert_all_spec es S0 :
  ascending less S0 →
  let S := foldl (λ S key, set_insert less key.1 S) S0 es in
  ascending less S ∧ ∀ x, x ∈ S ↔ x ∈ S0 ∨ x ∈ es.*1.
Proof.
  revert S0. induction es as [|e es IH]; intros S0 Hs0; simpl.
  - split; [done|]. intros x. rewrite elem_of_nil. tauto.
  - destruct (IH (set_insert less e.1 S0)) as [Hasc Hel].
    { by apply set_insert_ascending. }
    split; [done|]. intros x.
    rewrite Hel, set_insert_elem_of, elem_of_cons. tauto.
Qed.

Lemma ascending_NoDup S : ascending less S → NoDup S.
Proof.
  unfold ascending. induction S as [|x S IH]; intros Hs.
  - apply NoDup_nil_2.
  - apply StronglySorted_cons in Hs as [Hall Hs].
    apply NoDup_cons. split; [|by apply IH].
    intros Hx. apply (proj1 (Forall_forall _ _) Hall) in Hx.
    by rewrite less_irrefl in Hx.
Qed.

(** For a source that has an adjacency entry, [neighbors] returns the set
    of the destinations of its records, ascending and without repetition. *)
Lemma neighbors_entry_spec g v es :
  0 ≤ _LookupVertex g v → adjList g !! v = Some es →
  ∃ S, neighbors less g v = Returns S
       ∧ ascending less S ∧ NoDup S ∧ ∀ x, x ∈ S ↔ x ∈ es.*1.
Proof.
  intros Hv Hes. eexists. split; [by apply neighbors_entry|].
  destruct (insert_all_spec es []) as [Hasc Hel]; [constructor|].
  split_and!; [done | by apply ascending_NoDup |].
  intros x. rewrite Hel, elem_of_nil. tauto.
Qed.

End Neighbors.

(** ** dump *)

Section Dump.

Context (show_vertex : VertexT → string) (show_weight : WeightT → string).











End Dump.

(** ** The copy returned by getVertices *)

Lemma getVertices_call_fresh (h : gmap positive (list VertexT)) this_Vertices :
  h !! (getVertices_call h this_Vertices).1 = None.
Proof. simpl. apply not_elem_of_dom, is_fresh. Qed.

Lemma mutate_other a a' changes (h : gmap positive (list VertexT)) :
  a' ≠ a → mutate a changes h !! a' = h !! a'.
Proof.
  intros Hne. unfold mutate. revert h.
  induction changes as [|f changes IH]; intros h; simpl; [done|].
  rewrite IH. by apply lookup_alter_ne.
Qed.

Lemma Vertices_after_calls g (ops : list (op VertexT WeightT)) :
  Vertices (foldl (λ g' o, (call g' o).2) g ops) = Vertices g ++ added_from g ops.
Proof.
  revert g. induction ops as [|[v|from to weight] ops IH]; intros g; simpl.
  - by rewrite app_nil_r.
  - rewrite IH. unfold addVertex.
    destruct (already_present (Vertices g) v); simpl; [done|].
    by rewrite <- app_assoc.
  - by rewrite IH, addEdge_Vertices.
Qed.

(** The registry of a reachable state lists the vertices in the order in
    which they were successfully added. *)
Lemma getVertices_insertion_order (ops : list (op VertexT WeightT)) :
  getVertices (run ops) = added_from empty_graph ops.
Proof. unfold getVertices, run. by rewrite Vertices_after_calls. Qed.

(** C9.  [getVertices] hands the caller a new vector object holding the
    registered vertices in insertion order; whatever changes the caller then
    makes to that object, the graph is the same as before, so [getVertices]
    and every other operation behave as if nothing had happened. *)
Theorem getVertices_returns_independent_copy
    (ops : list (op VertexT WeightT))
    (h : gmap positive (list VertexT)) this_Vertices
    (changes : list (list VertexT → list VertexT)) :
  h !! this_Vertices = Some (Vertices (run ops)) →
  let g := run ops in
  let result := (getVertices_call h this_Vertices).1 in
  let h1 := (getVertices_call h this_Vertices).2 in
  getVertices g = added_from empty_graph ops
  ∧ h1 !! result = Some (getVertices g)
  ∧ result ≠ this_Vertices
  ∧ graph_in (mutate result changes h1) this_Vertices (adjList g) = g
  ∧ getVertices (graph_in (mutate result changes h1) this_Vertices (adjList g))
    = getVertices g.
Proof.
  intros Halloc g result h1.
  assert (result ≠ this_Vertices) as Hne.
  { intros Heq. pose proof (getVertices_call_fresh h this_Vertices) as Hfresh.
    fold result in Hfresh. rewrite Heq in Hfresh. congruence. }
  assert (graph_in (mutate result changes h1) this_Vertices (adjList g) = g)
    as Hsame.
  { unfold graph_in. rewrite mutate_other by done. subst h1. simpl.
    rewrite lookup_insert_ne by done. rewrite Halloc. simpl.
    fold g. by destruct g. }
  split_and!; [apply getVertices_insertion_order | | done | done | by rewrite Hsame].
  subst h1 result. simpl. by rewrite lookup_insert_eq, Halloc.
Qed.

(** ** Registries beyond the [int] range *)

(** With 2^31 vertices the converted size is [INT_MIN], the loop of
    [_LookupVertex] is never entered, and no vertex is found. *)
Lemma NumVertices_wraps g : vsize (Vertices g) = 2 ^ 31 → NumVertices g = INT_MIN.
Proof. intros Hsize. unfold NumVertices. by rewrite Hsize. Qed.

Lemma _LookupVertex_wrapped g v :
  vsize (Vertices g) = 2 ^ 31 → _LookupVertex g v = -1.
Proof.
  intros Hsize. unfold _LookupVertex.
  rewrite NumVertices_wraps by done. by apply lookup_from_bound.
Qed.

Lemma addVertex_wraps g v :
  vsize (Vertices g) = INT_MAX → v ∉ Vertices g →
  NumVertices g = INT_MAX ∧ NumVertices (addVertex g v).2 = INT_MIN.
Proof.
  intros Hsize Hv. split.
  - unfold NumVertices. by rewrite Hsize.
  - rewrite addVertex_fresh by done. unfold NumVertices, vsize in *. simpl.
    rewrite length_app, Nat2Z.inj_add, Hsize. done.
Qed.

(** A duplicate-free list of vertices, registered one by one. *)
Lemma run_AddVertex vs :
  NoDup vs →
  run (AddVertex <$> vs) = {| adjList := ∅; Vertices := vs |} :> graph.
Proof.
  induction vs as [|v vs IH] using rev_ind; intros Hnd; [done|].
  apply NoDup_app in Hnd as (Hnd & Hv & _).
  rewrite fmap_app. simpl. rewrite run_snoc, IH by done. simpl.
  rewrite addVertex_fresh; [done|]. simpl.
  intros Hin. apply (Hv v Hin), list_elem_of_singleton. done.
Qed.

End Properties.

(** * The operations on concrete graphs *)

Lemma two_vertices_one_edge_state :
  Vertices two_vertices_one_edge = ["A"; "B"]
  ∧ map_to_list (adjList two_vertices_one_edge) = [("A", [("B", 5)])].
Proof. by vm_compute. Qed.

(** C1 (the code departs from it).  In the state with vertices A and B and
    the single edge A→B, both B and A are registered and there is no edge
    B→A, yet [getWeight("B", "A", weight)] does not return [false]: B has no
    adjacency entry and [adjList.at] throws [std::out_of_range]. *)
Theorem getWeight_throws_without_outgoing_edge :
  "B" ∈ Vertices two_vertices_one_edge
  ∧ "A" ∈ Vertices two_vertices_one_edge
  ∧ adjList two_vertices_one_edge !! "B" = None
  ∧ getWeight two_vertices_one_edge "B" "A" 0 = Throws out_of_range.
Proof. split_and!; [by_evaluation | by_evaluation | by vm_compute..]. Qed.

(** C2 (the code departs from it).  In the same state B is registered and
    has no outgoing edge, yet [neighbors("B")] does not return the empty
    set: [adjList.at] throws [std::out_of_range].  An unregistered vertex
    gives the empty set and a source with edges its destinations. *)
Theorem neighbors_throws_without_outgoing_edge :
  "B" ∈ Vertices two_vertices_one_edge
  ∧ adjList two_vertices_one_edge !! "B" = None
  ∧ neighbors String.ltb two_vertices_one_edge "B" = Throws out_of_range
  ∧ neighbors String.ltb two_vertices_one_edge "C" = Returns []
  ∧ neighbors String.ltb two_vertices_one_edge "A" = Returns ["B"].
Proof. split_and!; [by_evaluation | by vm_compute..]. Qed.

(** C3 (the code departs from it).  [dump] called with a stream other than
    [cout] writes nothing to that stream and the whole text to [cout]. *)
Theorem dump_writes_to_cout_not_to_its_argument :
  let σ := dump id pretty two_vertices_one_edge (other_stream 0) (λ _, EmptyString) in
  σ (other_stream 0) = EmptyString ∧ σ cout = "A: (A,B,5) " +:+ endl.
Proof. by vm_compute. Qed.

(** ** [addVertex] *)

Lemma addVertex_registers_once_witness :
  (("C" ∉ Vertices two_vertices_one_edge)
   ∧ vsize (Vertices two_vertices_one_edge) < INT_MAX
   ∧ addVertex two_vertices_one_edge "C"
     = (true, {| adjList := adjList two_vertices_one_edge; Vertices := ["A"; "B"; "C"] |})
   ∧ NumVertices (addVertex two_vertices_one_edge "C").2 = 3)
  ∧ ("A" ∈ Vertices two_vertices_one_edge
     ∧ addVertex two_vertices_one_edge "A" = (false, two_vertices_one_edge)
     ∧ NumVertices (addVertex two_vertices_one_edge "A").2 = 2).
Proof.
  assert ("C" ∉ Vertices two_vertices_one_edge) as Hfresh by by_evaluation.
  assert ("A" ∈ Vertices two_vertices_one_edge) as Hknown by by_evaluation.
  assert (vsize (Vertices two_vertices_one_edge) < INT_MAX) as Hsmall
    by (vm_compute; reflexivity).
  pose proof (addVertex_registers_once two_vertices_one_edge "C") as [HC _].
  pose proof (addVertex_registers_once two_vertices_one_edge "A") as [_ HA].
  destruct (HC Hfresh) as [HC1 HC2]. destruct (HA Hknown) as [HA1 HA2].
  split_and!; [done | done | exact HC1 | | done | exact HA1 |].
  - rewrite (HC2 Hsmall). vm_compute. reflexivity.
  - rewrite HA2. vm_compute. reflexivity.
Defined.

(** C4 as it is stated fails on a registry of [INT_MAX] vertices: the new
    vertex is appended, but [NumVertices] goes from 2147483647 to
    -2147483648 instead of growing by one. *)
Lemma addVertex_count_wraps_at_INT_MAX :
  let g := numbered_vertices INT_MAX in
  ((-1) ∉ Vertices g)
  ∧ (addVertex g (-1)).1 = true
  ∧ NumVertices g = 2147483647
  ∧ NumVertices (addVertex g (-1)).2 = -2147483648
  ∧ NumVertices (addVertex g (-1)).2 ≠ NumVertices g + 1.
Proof.
  intros g.
  assert ((-1) ∉ Vertices g) as Hfresh.
  { unfold g, numbered_vertices. cbn [Vertices]. rewrite elem_of_seqZ. lia. }
  assert (vsize (Vertices g) = INT_MAX) as Hsize.
  { unfold g, numbered_vertices, vsize. cbn [Vertices].
    rewrite length_seqZ. apply Z2Nat.id. discriminate. }
  destruct (addVertex_wraps g (-1) Hsize Hfresh) as [Hbefore Hafter].
  split_and!; [done | by rewrite addVertex_fresh | done | done |].
  rewrite Hbefore, Hafter. discriminate.
Qed.

(** ** [addEdge] and [getWeight] *)

Lemma addEdge_unknown_vertex_witness :
  ("A" ∉ Vertices two_vertices_one_edge ∨ "C" ∉ Vertices two_vertices_one_edge)
  ∧ addEdge two_vertices_one_edge "A" "C" 7 = (false, two_vertices_one_edge)
  ∧ NumEdges (addEdge two_vertices_one_edge "A" "C" 7).2 = 1
  ∧ NumVertices (addEdge two_vertices_one_edge "A" "C" 7).2 = 2.
Proof.
  assert ("A" ∉ Vertices two_vertices_one_edge ∨ "C" ∉ Vertices two_vertices_one_edge)
    as Hun by (right; by_evaluation).
  destruct (addEdge_unknown_vertex two_vertices_one_edge "A" "C" 7 Hun)
    as (Hcall & _ & Hedges & Hvertices).
  split_and!; [done | exact Hcall | |].
  - rewrite Hedges. vm_compute. reflexivity.
  - rewrite Hvertices. vm_compute. reflexivity.
Defined.

Lemma addEdge_then_getWeight_witness :
  vsize (Vertices two_vertices_one_edge) ≤ INT_MAX
  ∧ "B" ∈ Vertices two_vertices_one_edge
  ∧ (addEdge two_vertices_one_edge "B" "B" 1).1 = true
  ∧ getWeight (addEdge two_vertices_one_edge "B" "B" 1).2 "B" "B" 0
    = Returns (true, 1).
Proof.
  assert (vsize (Vertices two_vertices_one_edge) ≤ INT_MAX) as Hsmall
    by (vm_compute; discriminate).
  assert ("B" ∈ Vertices two_vertices_one_edge) as HB by by_evaluation.
  destruct (addEdge_then_getWeight two_vertices_one_edge "B" "B" 1 Hsmall HB HB)
    as [Hcall Hweight].
  split_and!; [done | done | exact Hcall | exact (Hweight 0)].
Defined.

(** C7 as it is stated fails on a registry of 2^31 vertices: vertex 0 is
    registered, but [_LookupVertex] compares its index with a negative
    [NumVertices()] and finds nothing, so [addEdge(0, 0, 7)] returns
    [false] and [getWeight] afterwards returns [false] too. *)
Lemma addEdge_fails_beyond_INT_MAX :
  let g := numbered_vertices (2 ^ 31) in
  g = run (AddVertex <$> seqZ 0 (2 ^ 31))
  ∧ 0 ∈ Vertices g
  ∧ (addEdge g 0 0 7).1 = false
  ∧ getWeight (addEdge g 0 0 7).2 0 0 0 = Returns (false, 0)
  ∧ ¬ ((addEdge g 0 0 7).1 = true
       ∧ ∀ weight, getWeight (addEdge g 0 0 7).2 0 0 weight = Returns (true, 7)).
Proof.
  intros g.
  assert (vsize (Vertices g) = 2 ^ 31) as Hsize.
  { unfold g, numbered_vertices, vsize. cbn [Vertices].
    rewrite length_seqZ. apply Z2Nat.id. discriminate. }
  assert (addEdge g 0 0 7 = (false, g)) as Hcall.
  { apply addEdge_not_found. left. rewrite _LookupVertex_wrapped by done. lia. }
  split_and!.
  - unfold g, numbered_vertices. symmetry. apply run_AddVertex, NoDup_seqZ.
  - unfold g, numbered_vertices. cbn [Vertices]. rewrite elem_of_seqZ. lia.
  - by rewrite Hcall.
  - rewrite Hcall. cbn [snd]. unfold getWeight.
    rewrite decide_True; [done|]. left. rewrite _LookupVertex_wrapped by done. lia.
  - rewrite Hcall. intros [Htrue _]. discriminate Htrue.
Qed.

Lemma addEdge_twice_overwrites_witness :
  "A" ∈ Vertices two_vertices_one_edge
  ∧ "B" ∈ Vertices two_vertices_one_edge
  ∧ vsize (Vertices two_vertices_one_edge) ≤ INT_MAX
  ∧ NumEdges (addEdge (addEdge two_vertices_one_edge "B" "A" 3).2 "B" "A" 9).2
    = NumEdges (addEdge two_vertices_one_edge "B" "A" 3).2
  ∧ NumEdges (addEdge two_vertices_one_edge "B" "A" 3).2 = 2
  ∧ getWeight (addEdge (addEdge two_vertices_one_edge "B" "A" 3).2 "B" "A" 9).2
              "B" "A" 0
    = Returns (true, 9).
Proof.
  assert ("A" ∈ Vertices two_vertices_one_edge) as HA by by_evaluation.
  assert ("B" ∈ Vertices two_vertices_one_edge) as HB by by_evaluation.
  assert (vsize (Vertices two_vertices_one_edge) ≤ INT_MAX) as Hsmall
    by (vm_compute; discriminate).
  destruct (addEdge_twice_overwrites two_vertices_one_edge "B" "A" 3 9 HB HA)
    as (Hedges & _ & Hweight).
  split_and!; [done | done | done | exact Hedges | | exact (Hweight Hsmall 0)].
  vm_compute. reflexivity.
Defined.

(** C5 as it is stated fails on a registry of 2^31 vertices: both
    [addEdge(0, 1, _)] calls return [false] without adding anything, and
    [getWeight(0, 1, weight)] returns [false] instead of the second weight. *)
Lemma addEdge_twice_fails_beyond_INT_MAX :
  let g := numbered_vertices (2 ^ 31) in
  let g2 := (addEdge (addEdge g 0 1 3).2 0 1 9).2 in
  0 ∈ Vertices g
  ∧ 1 ∈ Vertices g
  ∧ getWeight g2 0 1 0 = Returns (false, 0)
  ∧ getWeight g2 0 1 0 ≠ Returns (true, 9).
Proof.
  intros g g2.
  assert (vsize (Vertices g) = 2 ^ 31) as Hsize.
  { unfold g, numbered_vertices, vsize. cbn [Vertices].
    rewrite length_seqZ. apply Z2Nat.id. discriminate. }
  assert (∀ w, addEdge g 0 1 w = (false, g)) as Hcall.
  { intros w. apply addEdge_not_found. left.
    rewrite _LookupVertex_wrapped by done. lia. }
  assert (getWeight g2 0 1 0 = Returns (false, 0)) as Hweight.
  { unfold g2. rewrite (Hcall 3). cbn [snd]. rewrite (Hcall 9). cbn [snd].
    unfold getWeight. rewrite decide_True; [done|].
    left. rewrite _LookupVertex_wrapped by done. lia. }
  split_and!.
  - unfold g, numbered_vertices. cbn [Vertices]. rewrite elem_of_seqZ. lia.
  - unfold g, numbered_vertices. cbn [Vertices]. rewrite elem_of_seqZ. lia.
  - done.
  - rewrite Hweight. discriminate.
Qed.

(** ** [getVertices] *)

Lemma getVertices_returns_independent_copy_witness :
  let ops : list (op string Z) :=
    [AddVertex "B"; AddVertex "A"; AddVertex "B"; AddEdge "A" "B" 5] in
  let h : gmap positive (list string) := {[ 1%positive := ["B"; "A"] ]} in
  let changes := [λ l, l ++ ["Z"]; λ l, tail l; λ _, []] in
  let result := (getVertices_call h 1%positive).1 in
  let h1 := (getVertices_call h 1%positive).2 in
  h !! 1%positive = Some (Vertices (run ops))
  ∧ getVertices (run ops) = ["B"; "A"]
  ∧ h1 !! result = Some ["B"; "A"]
  ∧ mutate result changes h1 !! result = Some []
  ∧ getVertices (graph_in (mutate result changes h1) 1%positive (adjList (run ops)))
    = ["B"; "A"].
Proof.
  intros ops h changes result h1.
  assert (h !! 1%positive = Some (Vertices (run ops))) as Halloc by (by vm_compute).
  destruct (getVertices_returns_independent_copy ops h 1%positive changes Halloc)
    as (Horder & Hcopy & _ & _ & Hagain).
  split_and!; [done | exact Horder | exact Hcopy | by vm_compute | exact Hagain].
Defined.

(** * Further properties of the operations *)

Section FurtherProperties.

Context {VertexT WeightT : Type} `{Countable VertexT}.

#[local] Abbreviation edge := (VertexT * WeightT)%type.
#[local] Abbreviation graph := (graph VertexT WeightT).

Implicit Types (g : graph) (v from to : VertexT) (w weight : WeightT).
Implicit Types (es : list edge) (vs rest : list VertexT).
Implicit Types (ops : list (op VertexT WeightT)).

(** ** _LookupVertex *)

Lemma lookup_from_first rest i n v :
  0 ≤ i → n ≤ INT_MAX →
  lookup_from rest i n v = -1
  ∨ ∃ k : nat, lookup_from rest i n v = i + Z.of_nat k
      ∧ rest !! k = Some v
      ∧ ∀ j, (j < k)%nat → rest !! j ≠ Some v.
Proof.
  revert i. induction rest as [|x rest IH]; intros i Hi Hn; simpl; [by left|].
  case_decide as Hin; [|by left].
  case_decide as Hx.
  - right. exists 0%nat. split_and!; [lia | by rewrite Hx | lia].
  - rewrite to_int_id by (unfold INT_MIN, INT_MAX in *; lia).
    destruct (IH (i + 1)) as [Hnone|(k & Hk & Hat & Hfirst)]; [lia | done | by left |].
    right. exists (S k). split_and!; [lia | done |].
    intros [|j] Hj; simpl.
    + congruence.
    + apply Hfirst. lia.
Qed.

(** X1.  [_LookupVertex] returns either -1 or an index of [Vertices] that
    holds [v] and before which [v] does not occur.  It returns -1 for every
    vertex that is not registered, and, when the registry has at most
    [INT_MAX] elements, a non-negative index for every vertex that is. *)
Theorem _LookupVertex_first_occurrence g v :
  (_LookupVertex g v = -1
   ∨ ∃ k : nat, _LookupVertex g v = Z.of_nat k
       ∧ Vertices g !! k = Some v
       ∧ ∀ j, (j < k)%nat → Vertices g !! j ≠ Some v)
  ∧ (v ∉ Vertices g → _LookupVertex g v = -1)
  ∧ (vsize (Vertices g) ≤ INT_MAX → v ∈ Vertices g → 0 ≤ _LookupVertex g v).
Proof.
  split_and!.
  - unfold _LookupVertex.
    destruct (lookup_from_first (Vertices g) 0 (NumVertices g) v)
      as [Hnone|(k & Hk & Hat & Hfirst)]; [done | apply to_int_range | by left |].
    right. exists k. by rewrite Hk.
  - apply _LookupVertex_absent.
  - apply _LookupVertex_present.
Qed.

(** ** Queries that fail *)

(** X2.  When [from] or [to] is not registered, [getWeight] returns [false]
    and leaves the output parameter as it was; when [v] is not registered,
    [neighbors] returns the empty set.  Neither throws, in any graph. *)
Theorem queries_on_unregistered_vertices (less : VertexT → VertexT → bool)
    g from to weight :
  from ∉ Vertices g ∨ to ∉ Vertices g →
  getWeight g from to weight = Returns (false, weight)
  ∧ (from ∉ Vertices g → neighbors less g from = Returns [])
  ∧ (to ∉ Vertices g → neighbors less g to = Returns []).
Proof.
  intros Hun. split_and!.
  - by apply getWeight_unregistered.
  - apply neighbors_unregistered.
  - apply neighbors_unregistered.
Qed.

Lemma getWeight_throws_inv g from to weight :
  getWeight g from to weight = Throws out_of_range
  ↔ 0 ≤ _LookupVertex g from ∧ 0 ≤ _LookupVertex g to ∧ adjList g !! from = None.
Proof.
  unfold getWeight. case_decide as Hlook.
  - split; [done | lia].
  - destruct (adjList g !! from) as [es|] eqn:Hes.
    + split; [by destruct (find_weight es to) | by intros (_ & _ & ?)].
    + split; [intros _; split_and!; [lia | lia | done] | done].
Qed.

Lemma neighbors_throws_inv (less : VertexT → VertexT → bool) g v :
  neighbors less g v = Throws out_of_range
  ↔ 0 ≤ _LookupVertex g v ∧ adjList g !! v = None.
Proof.
  unfold neighbors. case_decide as Hlook.
  - split; [done | lia].
  - destruct (adjList g !! v) as [es|] eqn:Hes.
    + split; [done | by intros [_ ?]].
    + split; [intros _; split; [lia | done] | done].
Qed.

Lemma _LookupVertex_nonneg_iff g v :
  vsize (Vertices g) ≤ INT_MAX → 0 ≤ _LookupVertex g v ↔ v ∈ Vertices g.
Proof.
  intros Hmax. split.
  - apply _LookupVertex_nonneg_elem_of.
  - by apply _LookupVertex_present.
Qed.

Lemma no_entry_iff ops source :
  adjList (run ops) !! source = None ↔ ¬ succeeded_as_source ops source.
Proof.
  rewrite <- run_entry_iff, eq_None_not_Some. done.
Qed.

(** X3.  In a state reached from the empty graph that holds at most
    [INT_MAX] vertices, [getWeight(from, to, weight)] throws
    [std::out_of_range] exactly when both vertices are registered and no
    [addEdge] call with [from] as source has returned [true] so far. *)
Theorem getWeight_throws_iff ops from to weight :
  vsize (Vertices (run ops)) ≤ INT_MAX →
  getWeight (run ops) from to weight = Throws out_of_range
  ↔ from ∈ Vertices (run ops) ∧ to ∈ Vertices (run ops)
    ∧ ¬ succeeded_as_source ops from.
Proof.
  intros Hmax.
  by rewrite getWeight_throws_inv, !_LookupVertex_nonneg_iff, no_entry_iff.
Qed.

(** X4.  In a state reached from the empty graph that holds at most
    [INT_MAX] vertices, [neighbors(v)] throws [std::out_of_range] exactly
    when [v] is registered and no [addEdge] call with [v] as source has
    returned [true] so far. *)
Theorem neighbors_throws_iff (less : VertexT → VertexT → bool) ops v :
  vsize (Vertices (run ops)) ≤ INT_MAX →
  neighbors less (run ops) v = Throws out_of_range
  ↔ v ∈ Vertices (run ops) ∧ ¬ succeeded_as_source ops v.
Proof.
  intros Hmax.
  by rewrite neighbors_throws_inv, _LookupVertex_nonneg_iff, no_entry_iff.
Qed.

(** ** What a call leaves alone *)

Lemma overwrite_find_other es to weight es' to' :
  to' ≠ to → overwrite es to weight = Some es' →
  find_weight es' to' = find_weight es to'.
Proof.
  intros Hne. revert es'.
  induction es as [|e es IH]; intros es' Hov; simpl in *; [done|].
  case_decide as He.
  - injection Hov as <-. simpl. by rewrite !decide_False by congruence.
  - destruct (overwrite es to weight) as [es1|]; simplify_eq/=.
    case_decide; [done|]. by apply IH.
Qed.

Lemma find_weight_app_other es to weight to' :
  to' ≠ to → find_weight (es ++ [(to, weight)]) to' = find_weight es to'.
Proof.
  intros Hne. induction es as [|e es IH]; simpl.
  - by rewrite decide_False.
  - case_decide; [done | apply IH].
Qed.

Lemma updated_edges_find_other es to weight to' :
  to' ≠ to → find_weight (updated_edges es to weight) to' = find_weight es to'.
Proof.
  intros Hne. unfold updated_edges.
  destruct (overwrite es to weight) eqn:Hov.
  - by apply (overwrite_find_other es to weight).
  - by apply find_weight_app_other.
Qed.

(** [getWeight] looks at the registry only through the two lookups, and at
    the adjacency map only through the entry of [from]. *)
Lemma getWeight_ext g g' from to weight :
  Vertices g' = Vertices g →
  adjList g' !! from = adjList g !! from
  ∨ (is_Some (adjList g !! from)
     ∧ ∃ es', adjList g' !! from = Some es'
         ∧ find_weight es' to = find_weight (default [] (adjList g !! from)) to) →
  getWeight g' from to weight = getWeight g from to weight.
Proof.
  intros HV Hadj. unfold getWeight.
  rewrite !(_LookupVertex_same_registry g g') by done.
  case_decide; [done|].
  destruct Hadj as [->|([es Hes] & es' & -> & Hfind)]; [done|].
  rewrite Hes in *. simpl in Hfind. by rewrite Hfind.
Qed.

(** X5.  [addEdge(from, to, _)] does not change what [getWeight] answers
    for any other pair: not for a pair with another source, and not for a
    pair with the same source and another destination, provided the source
    had an adjacency entry before the call. *)
Theorem addEdge_keeps_other_weights g from to w from' to' weight :
  from' ≠ from ∨ (to' ≠ to ∧ is_Some (adjList g !! from)) →
  getWeight (addEdge g from to w).2 from' to' weight
  = getWeight g from' to' weight.
Proof.
  intros Hother.
  destruct (addEdge_cases g from to w) as [->|(_ & _ & ->)]; [done|].
  apply getWeight_ext; [done|]. simpl.
  destruct (decide (from' = from)) as [->|Hne].
  - destruct Hother as [?|[Hto Hsome]]; [done|].
    right. split; [done|]. eexists. split; [apply lookup_insert_eq|].
    by apply updated_edges_find_other.
  - left. by rewrite lookup_insert_ne.
Qed.

(** X6.  A successful [addEdge] for a pair that has no record yet adds
    exactly one edge record; [NumEdges] then grows by exactly one as long as
    the graph held fewer than [INT_MAX] records. *)
Theorem addEdge_new_edge_counts g from to w :
  vsize (Vertices g) ≤ INT_MAX → from ∈ Vertices g → to ∈ Vertices g →
  to ∉ (default [] (adjList g !! from)).*1 →
  edge_records (adjList (addEdge g from to w).2) = S (edge_records (adjList g))
  ∧ (Z.of_nat (edge_records (adjList g)) < INT_MAX →
     NumEdges (addEdge g from to w).2 = NumEdges g + 1).
Proof.
  intros Hmax Hfrom%(_LookupVertex_present g) Hto%(_LookupVertex_present g) Hnew;
    try done.
  rewrite addEdge_found by done. simpl.
  assert (edge_records (<[from := updated_edges (default [] (adjList g !! from)) to w]>
                          (adjList g))
          = S (edge_records (adjList g))) as Hrec.
  { pose proof (edge_records_insert (adjList g) from
                  (updated_edges (default [] (adjList g !! from)) to w)) as Hins.
    assert (length (updated_edges (default [] (adjList g !! from)) to w)
            = S (length (default [] (adjList g !! from)))) as Hlen.
    { rewrite <- !(length_fmap fst), updated_edges_fst.
      rewrite decide_False by done. rewrite length_app. simpl. lia. }
    lia. }
  split; [done|]. intros Hsmall.
  rewrite !NumEdges_edge_records. simpl. rewrite Hrec.
  rewrite !to_int_id by (unfold INT_MIN, INT_MAX in *; lia). lia.
Qed.

Lemma addVertex_Vertices_prefix g v :
  Vertices g `prefix_of` Vertices (addVertex g v).2.
Proof.
  unfold addVertex. destruct (already_present (Vertices g) v); simpl.
  - done.
  - by apply prefix_app_r.
Qed.




(** X8.  A second [addVertex] with the same vertex always returns [false]
    and changes nothing, whether the first call added the vertex or found
    it there. *)
Theorem addVertex_twice g v :
  addVertex (addVertex g v).2 v = (false, (addVertex g v).2).
Proof.
  apply addVertex_known.
  destruct (decide (v ∈ Vertices g)) as [Hv|Hv].
  - by rewrite addVertex_known.
  - rewrite addVertex_fresh by done. simpl.
    apply elem_of_app. right. by apply list_elem_of_singleton.
Qed.

(** X9.  Two [addEdge] calls with different sources can be made in either
    order: the results are the same and so is the final state. *)
Theorem addEdge_different_sources_commute g from1 to1 w1 from2 to2 w2 :
  from1 ≠ from2 →
  (addEdge (addEdge g from1 to1 w1).2 from2 to2 w2).2
  = (addEdge (addEdge g from2 to2 w2).2 from1 to1 w1).2
  ∧ (addEdge (addEdge g from1 to1 w1).2 from2 to2 w2).1
    = (addEdge g from2 to2 w2).1
  ∧ (addEdge (addEdge g from2 to2 w2).2 from1 to1 w1).1
    = (addEdge g from1 to1 w1).1.
Proof.
  intros Hne.
  destruct (decide (_LookupVertex g from1 < 0 ∨ _LookupVertex g to1 < 0)) as [H1|H1];
  destruct (decide (_LookupVertex g from2 < 0 ∨ _LookupVertex g to2 < 0)) as [H2|H2].
  - rewrite (addEdge_not_found g from1 to1 w1 H1),
      (addEdge_not_found g from2 to2 w2 H2). simpl.
    by rewrite (addEdge_not_found g from1 to1 w1 H1),
      (addEdge_not_found g from2 to2 w2 H2).
  - rewrite (addEdge_not_found g from1 to1 w1 H1). simpl.
    rewrite (addEdge_found g from2) by lia. simpl.
    rewrite addEdge_not_found; [done|].
    by rewrite !(_LookupVertex_same_registry g).
  - rewrite (addEdge_not_found g from2 to2 w2 H2). simpl.
    rewrite (addEdge_found g from1) by lia. simpl.
    rewrite addEdge_not_found; [done|].
    by rewrite !(_LookupVertex_same_registry g).
  - rewrite (addEdge_found g from1), (addEdge_found g from2) by lia. simpl.
    rewrite !addEdge_found
      by (rewrite (_LookupVertex_same_registry g) by done; lia).
    simpl. rewrite !lookup_insert_ne by done.
    split_and!; [|done..]. f_equal. by apply insert_insert_ne.
Qed.

(** ** Nothing is ever removed *)

Lemma grown_from_refl g : grown_from g g.
Proof. split; [done|]. intros source es Hs. by exists es. Qed.

Lemma grown_from_trans g1 g2 g3 :
  grown_from g1 g2 → grown_from g2 g3 → grown_from g1 g3.
Proof.
  intros [HV12 Ha12] [HV23 Ha23]. split; [by etrans|].
  intros source es Hs.
  destruct (Ha12 source es Hs) as (es2 & Hs2 & Hp2).
  destruct (Ha23 source es2 Hs2) as (es3 & Hs3 & Hp3).
  exists es3. split; [done | by etrans].
Qed.

Lemma call_grown_from g (o : op VertexT WeightT) : grown_from g (call g o).2.
Proof.
  destruct o as [v|from to weight]; simpl.
  - split; [apply addVertex_Vertices_prefix|].
    intros source es Hs. exists es. by rewrite addVertex_adjList.
  - destruct (addEdge_cases g from to weight) as [->|(_ & _ & ->)];
      [apply grown_from_refl|].
    split; [done|]. intros source es Hs. simpl.
    destruct (decide (source = from)) as [->|Hne].
    + eexists. split; [apply lookup_insert_eq|].
      rewrite Hs. simpl. rewrite updated_edges_fst.
      case_decide; [done | by apply prefix_app_r].
    + exists es. by rewrite lookup_insert_ne.
Qed.

(** X10.  No sequence of [addVertex] and [addEdge] calls removes or
    reorders anything: the registry before the calls is an initial segment of
    the registry after them, every adjacency key stays a key, and the
    destinations recorded for it stay the first ones in its edge vector. *)
Theorem calls_never_remove g ops :
  grown_from g (foldl (λ g' o, (call g' o).2) g ops).
Proof.
  revert g. induction ops as [|o ops IH]; intros g; simpl.
  - apply grown_from_refl.
  - eapply grown_from_trans; [apply call_grown_from | apply IH].
Qed.

(** ** What the state records *)

Lemma addVertex_elem_of g u v :
  v ∈ Vertices (addVertex g u).2 ↔ v ∈ Vertices g ∨ v = u.
Proof.
  destruct (decide (u ∈ Vertices g)) as [Hu|Hu].
  - rewrite addVertex_known by done. simpl.
    split; [by left | by intros [?| ->]].
  - rewrite addVertex_fresh by done. simpl.
    by rewrite elem_of_app, list_elem_of_singleton.
Qed.

(** X11.  In a state reached from the empty graph, the registered vertices
    are exactly the vertices that were passed to [addVertex]. *)
Theorem registered_iff_added ops v :
  v ∈ getVertices (run ops) ↔ AddVertex v ∈ ops.
Proof.
  unfold getVertices. induction ops as [|o ops IH] using rev_ind.
  - unfold run. simpl. by rewrite !elem_of_nil.
  - rewrite run_snoc, elem_of_app, list_elem_of_singleton, <- IH.
    destruct o as [u|from to weight]; simpl.
    + rewrite addVertex_elem_of. split; intros [?|Heq]; auto; right; congruence.
    + rewrite addEdge_Vertices. split; [by left | by intros [?|?]].
Qed.

Lemma has_edge_iff g from to :
  has_edge g from to ↔ to ∈ (default [] (adjList g !! from)).*1.
Proof.
  unfold has_edge. destruct (adjList g !! from) as [es|]; simpl.
  - split; [by intros (? & [= <-] & ?) | by exists es].
  - rewrite elem_of_nil. split; [by intros (? & ? & ?) | done].
Qed.

Lemma call_has_edge g (o : op VertexT WeightT) from to :
  has_edge (call g o).2 from to
  ↔ has_edge g from to
    ∨ ∃ weight, o = AddEdge from to weight ∧ (call g o).1 = true.
Proof.
  destruct o as [v|f t weight]; simpl.
  - unfold has_edge. rewrite addVertex_adjList.
    split; [by left | by intros [?|(? & ? & _)]].
  - destruct (addEdge_cases g f t weight) as [Heq|(_ & _ & Heq)]; rewrite Heq; simpl.
    + split; [by left | by intros [?|(? & _ & ?)]].
    + rewrite !has_edge_iff. simpl. rewrite lookup_insert. case_decide as Hsrc.
      * subst f. simpl. rewrite updated_edges_fst. split.
        -- case_decide as Hin; [by left|].
           intros [?|Hto%list_elem_of_singleton]%elem_of_app; [by left|].
           subst. right. by exists weight.
        -- intros [Hin|(w' & [= -> _] & _)].
           ++ case_decide; [done|]. apply elem_of_app. by left.
           ++ case_decide; [done|]. apply elem_of_app. right.
              by apply list_elem_of_singleton.
      * split; [by left|]. intros [?|(w' & [= ? _ _] & _)]; [done|]. by subst.
Qed.

(** X12.  In a state reached from the empty graph, the edge vector of
    [from] holds a record for [to] exactly when some [addEdge(from, to, _)]
    call has returned [true]. *)
Theorem edge_recorded_iff_added ops from to :
  has_edge (run ops) from to ↔ edge_added ops from to.
Proof.
  induction ops as [|o ops IH] using rev_ind.
  - split.
    + intros (es & Hes & _). unfold run in Hes. simpl in Hes.
      by rewrite lookup_empty in Hes.
    + intros (pre & weight & post & Heq & _). by destruct pre.
  - rewrite run_snoc, call_has_edge, IH. split.
    + intros [(pre & weight & post & -> & Hcall)|(weight & -> & Hcall)].
      * exists pre, weight, (post ++ [o]). split; [|done].
        by rewrite <- app_assoc.
      * exists ops, weight, []. done.
    + intros (pre & weight & post & Heq & Hcall).
      destruct post as [|p post _] using rev_ind.
      * apply app_inj_tail in Heq as [-> ->]. right. by exists weight.
      * rewrite app_comm_cons, app_assoc in Heq.
        apply app_inj_tail in Heq as [-> ->]. left.
        by exists pre, weight, post.
Qed.

(** ** The weight that [getWeight] returns *)

Lemma later_calls_keep_weight g (post : list (op VertexT WeightT)) from to w :
  (∀ w', AddEdge from to w' ∉ post) →
  from ∈ Vertices g → to ∈ Vertices g →
  (∃ es, adjList g !! from = Some es ∧ find_weight es to = Some w) →
  let g' := foldl (λ g' o, (call g' o).2) g post in
  from ∈ Vertices g' ∧ to ∈ Vertices g'
  ∧ ∃ es, adjList g' !! from = Some es ∧ find_weight es to = Some w.
Proof.
  revert g. induction post as [|o post IH]; intros g Hpost Hfrom Hto Hes; simpl.
  { done. }
  apply IH.
  - intros w' Hin. apply (Hpost w'). by right.
  - destruct o as [v|f t w']; simpl.
    + apply addVertex_elem_of. by left.
    + by rewrite addEdge_Vertices.
  - destruct o as [v|f t w']; simpl.
    + apply addVertex_elem_of. by left.
    + by rewrite addEdge_Vertices.
  - destruct o as [v|f t w']; simpl.
    + by rewrite addVertex_adjList.
    + destruct Hes as (es & Hes & Hfind).
      destruct (addEdge_cases g f t w') as [->|(_ & _ & ->)]; [by exists es|].
      simpl. destruct (decide (f = from)) as [->|Hne].
      * assert (to ≠ t) as Hto'.
        { intros ->. apply (Hpost w'). by left. }
        eexists. split; [apply lookup_insert_eq|].
        rewrite Hes. simpl. by rewrite updated_edges_find_other.
      * exists es. by rewrite lookup_insert_ne.
Qed.

(** X13.  In a state of at most [INT_MAX] vertices, [getWeight(from, to)]
    returns [true] with the weight of the last [addEdge(from, to, _)] call
    that returned [true], whatever other calls were made afterwards. *)
Theorem getWeight_returns_last_weight
    (pre post : list (op VertexT WeightT)) from to w weight :
  vsize (Vertices (run (pre ++ AddEdge from to w :: post))) ≤ INT_MAX →
  (call (run pre) (AddEdge from to w)).1 = true →
  (∀ w', AddEdge from to w' ∉ post) →
  getWeight (run (pre ++ AddEdge from to w :: post)) from to weight
  = Returns (true, w).
Proof.
  intros Hmax Hcall Hpost.
  assert (run (pre ++ AddEdge from to w :: post)
          = foldl (λ g' o, (call g' o).2) (addEdge (run pre) from to w).2 post)
    as Hrun by (unfold run; by rewrite foldl_app).
  rewrite Hrun in *. simpl in Hcall.
  set (g1 := (addEdge (run pre) from to w).2) in *.
  assert (from ∈ Vertices g1 ∧ to ∈ Vertices g1
          ∧ ∃ es, adjList g1 !! from = Some es ∧ find_weight es to = Some w)
    as (Hfrom & Hto & Hes).
  { subst g1.
    destruct (addEdge_cases (run pre) from to w) as [Heq|(Hfrom & Hto & Heq)];
      rewrite Heq in *; [done|].
    split_and!; [done | done |]. simpl.
    eexists. split; [apply lookup_insert_eq | apply updated_edges_find]. }
  destruct (later_calls_keep_weight g1 post from to w Hpost Hfrom Hto Hes)
    as (Hfrom' & Hto' & es & Hes' & Hfind).
  rewrite (getWeight_entry _ _ _ _ es); [by rewrite Hfind | | | done].
  - by apply _LookupVertex_present.
  - by apply _LookupVertex_present.
Qed.

(** ** The capacity given to the constructor *)

(** X14.  The argument of [graph(int numVertices)] bounds nothing: on a
    graph built with any capacity, [addVertex] returns [true] for each new
    vertex of a duplicate-free sequence of any length and registers them all
    in order. *)
Theorem capacity_is_not_enforced (numVertices : Z) vs :
  NoDup vs →
  added_from (graph_of_capacity numVertices : graph) (AddVertex <$> vs) = vs
  ∧ getVertices (foldl (λ g' o, (call g' o).2)
                       (graph_of_capacity numVertices : graph)
                       (AddVertex <$> vs))
    = vs.
Proof.
  intros Hnd.
  pose proof (run_AddVertex (WeightT := WeightT) vs Hnd) as Hrun.
  assert (getVertices (run ((AddVertex <$> vs) : list (op VertexT WeightT))) = vs)
    as Hvs by (by rewrite Hrun).
  split; [|exact Hvs].
  rewrite getVertices_insertion_order in Hvs. exact Hvs.
Qed.

(** ** neighbors and getWeight together *)

Lemma find_weight_is_Some es to : is_Some (find_weight es to) ↔ to ∈ es.*1.
Proof.
  rewrite <- not_eq_None_Some, find_weight_None_iff.
  destruct (decide (to ∈ es.*1)); [split; [done | by intros ? ?] | split; [|done]].
  intros Hnn. by destruct Hnn.
Qed.

Section NeighborsAndWeights.

Context (less : VertexT → VertexT → bool).
Hypothesis less_irrefl : ∀ x, less x x = false.
Hypothesis less_trans :
  ∀ x y z, less x y = true → less y z = true → less x z = true.
Hypothesis less_total : ∀ x y, less x y = false → less y x = false → x = y.

(** X15.  In a state reached from the empty graph that holds at most
    [INT_MAX] vertices, for a vertex [v] that has been the source of a
    successful [addEdge], [neighbors(v)] returns a set, in ascending order
    and without repetition, whose elements are exactly the vertices [x] for
    which [getWeight(v, x)] returns [true]; it has as many elements as [v]
    has edge records. *)
Theorem neighbors_are_the_destinations_with_a_weight ops v :
  vsize (Vertices (run ops)) ≤ INT_MAX →
  succeeded_as_source ops v →
  ∃ S es,
    neighbors less (run ops) v = Returns S
    ∧ adjList (run ops) !! v = Some es
    ∧ ascending less S ∧ NoDup S ∧ length S = length es
    ∧ ∀ x, x ∈ S
          ↔ ∃ w, ∀ weight, getWeight (run ops) v x weight = Returns (true, w).
Proof.
  intros Hmax [es Hes]%run_entry_iff.
  destruct (run_invariants ops) as (_ & Hreg & Hone).
  destruct (Hreg v es Hes) as [Hv Hdst]. specialize (Hone v es Hes).
  pose proof (_LookupVertex_present _ _ Hmax Hv) as Hfound.
  destruct (neighbors_entry_spec less less_irrefl less_trans less_total
              (run ops) v es Hfound Hes) as (S & HS & Hasc & Hnd & Hel).
  exists S, es. split_and!; [done | done | done | done | |].
  - rewrite <- (length_fmap fst es). apply Permutation_length.
    apply NoDup_Permutation; done.
  - intros x. rewrite Hel. split.
    + intros Hx. assert (x ∈ Vertices (run ops)) as Hxv.
      { apply list_elem_of_fmap in Hx as (e & -> & He). by apply Hdst. }
      apply find_weight_is_Some in Hx as [w Hw].
      exists w. intros weight.
      rewrite (getWeight_entry _ _ _ _ es); [by rewrite Hw | done | | done].
      by apply _LookupVertex_present.
    + intros [w Hw].
      assert (es ≠ []) as Hne by (by apply (run_entries_nonempty ops v)).
      destruct es as [|e0 es0]; [done|].
      specialize (Hw e0.2). apply find_weight_is_Some.
      unfold getWeight in Hw. case_decide; [done|].
      rewrite Hes in Hw.
      by destruct (find_weight (e0 :: es0) x).
Qed.

End NeighborsAndWeights.

(** ** dump on every graph *)


(** ** The counts *)

(** X17.  [NumEdges] is the number of edge records converted to [int];
    [NumVertices] and [NumEdges] report the exact number of vertices and of
    edge records exactly when that number is at most [INT_MAX], and
    [NumVertices] never reports more vertices than there are. *)
Theorem counts_exact_iff_in_range g :
  NumEdges g = to_int (Z.of_nat (edge_records (adjList g)))
  ∧ (NumVertices g = vsize (Vertices g) ↔ vsize (Vertices g) ≤ INT_MAX)
  ∧ (NumEdges g = Z.of_nat (edge_records (adjList g))
     ↔ Z.of_nat (edge_records (adjList g)) ≤ INT_MAX)
  ∧ NumVertices g ≤ vsize (Vertices g).
Proof.
  split_and!.
  - apply NumEdges_edge_records.
  - split.
    + intros Heq. pose proof (to_int_range (vsize (Vertices g))) as Hr.
      unfold NumVertices in Heq. lia.
    + apply NumVertices_small.
  - rewrite NumEdges_edge_records. split.
    + intros Heq.
      pose proof (to_int_range (Z.of_nat (edge_records (adjList g)))) as Hr. lia.
    + intros Hle. apply to_int_id. unfold INT_MIN. lia.
  - apply NumVertices_le_size.
Qed.

(** X18.  The loop of [NumEdges] gives the same count in whatever order
    the entries of the adjacency map are visited. *)
Theorem NumEdges_any_iteration_order g (l : list (VertexT * list edge)) :
  l ≡ₚ map_to_list (adjList g) → foldl count_step 0 l = NumEdges g.
Proof.
  intros Hperm. unfold NumEdges.
  change 0 with (to_int 0). rewrite !foldl_count_step. by rewrite Hperm.
Qed.

End FurtherProperties.

(** * The further properties on concrete graphs *)

Lemma NumEdges_any_iteration_order_witness :
  let g := (addEdge two_vertices_one_edge "B" "A" 2).2 in
  let l := [("B", [("A", 2)]); ("A", [("B", 5)])] in
  l ≡ₚ map_to_list (adjList g)
  ∧ map_to_list (adjList g) = reverse l
  ∧ foldl count_step 0 l = NumEdges g
  ∧ NumEdges g = 2.
Proof.
  intros g l.
  assert (map_to_list (adjList g) = reverse l) as Horder by (by vm_compute).
  assert (l ≡ₚ map_to_list (adjList g)) as Hperm.
  { rewrite Horder. symmetry. apply reverse_Permutation. }
  split_and!; [done | done | | by vm_compute].
  exact (NumEdges_any_iteration_order g l Hperm).
Defined.

Lemma _LookupVertex_first_occurrence_witness :
  ("C" ∉ Vertices two_vertices_one_edge)
  ∧ _LookupVertex two_vertices_one_edge "C" = -1
  ∧ vsize (Vertices two_vertices_one_edge) ≤ INT_MAX
  ∧ "B" ∈ Vertices two_vertices_one_edge
  ∧ 0 ≤ _LookupVertex two_vertices_one_edge "B"
  ∧ _LookupVertex two_vertices_one_edge "B" = 1.
Proof.
  assert ("C" ∉ Vertices two_vertices_one_edge) as HC by by_evaluation.
  assert ("B" ∈ Vertices two_vertices_one_edge) as HB by by_evaluation.
  assert (vsize (Vertices two_vertices_one_edge) ≤ INT_MAX) as Hsmall
    by (vm_compute; discriminate).
  destruct (_LookupVertex_first_occurrence two_vertices_one_edge "C")
    as (_ & Habsent & _).
  destruct (_LookupVertex_first_occurrence two_vertices_one_edge "B")
    as (_ & _ & Hpresent).
  split_and!; [done | exact (Habsent HC) | done | done
              | exact (Hpresent Hsmall HB) | by vm_compute].
Defined.

Lemma queries_on_unregistered_vertices_witness :
  ("C" ∉ Vertices two_vertices_one_edge ∨ "A" ∉ Vertices two_vertices_one_edge)
  ∧ getWeight two_vertices_one_edge "C" "A" 0 = Returns (false, 0)
  ∧ neighbors String.ltb two_vertices_one_edge "C" = Returns [].
Proof.
  assert ("C" ∉ Vertices two_vertices_one_edge) as HC by by_evaluation.
  destruct (queries_on_unregistered_vertices String.ltb two_vertices_one_edge
              "C" "A" 0 (or_introl HC)) as (Hweight & Hneighbors & _).
  split_and!; [by left | exact Hweight | exact (Hneighbors HC)].
Defined.

Lemma getWeight_throws_iff_witness :
  let ops : list (op string Z) :=
    [AddVertex "A"; AddVertex "B"; AddVertex "A"; AddEdge "A" "B" 5] in
  vsize (Vertices (run ops)) ≤ INT_MAX
  ∧ getWeight (run ops) "B" "A" 0 = Throws out_of_range
  ∧ ¬ succeeded_as_source ops "B"
  ∧ getWeight (run ops) "A" "A" 0 ≠ Throws out_of_range.
Proof.
  intros ops.
  assert (vsize (Vertices (run ops)) ≤ INT_MAX) as Hsmall
    by (vm_compute; discriminate).
  assert (getWeight (run ops) "B" "A" 0 = Throws out_of_range) as Hthrows
    by (by vm_compute).
  pose proof (proj1 (getWeight_throws_iff ops "B" "A" 0 Hsmall) Hthrows)
    as (_ & _ & Hnever).
  split_and!; [done | done | done | by vm_compute].
Defined.

Lemma neighbors_throws_iff_witness :
  let ops : list (op string Z) :=
    [AddVertex "A"; AddVertex "B"; AddVertex "A"; AddEdge "A" "B" 5] in
  vsize (Vertices (run ops)) ≤ INT_MAX
  ∧ neighbors String.ltb (run ops) "B" = Throws out_of_range
  ∧ "B" ∈ Vertices (run ops)
  ∧ ¬ succeeded_as_source ops "B".
Proof.
  intros ops.
  assert (vsize (Vertices (run ops)) ≤ INT_MAX) as Hsmall
    by (vm_compute; discriminate).
  assert (neighbors String.ltb (run ops) "B" = Throws out_of_range) as Hthrows
    by (by vm_compute).
  pose proof (proj1 (neighbors_throws_iff String.ltb ops "B" Hsmall) Hthrows)
    as (Hreg & Hnever).
  split_and!; done.
Defined.

Lemma addEdge_keeps_other_weights_witness :
  ("A" ≠ "B" ∨ ("B" ≠ "A" ∧ is_Some (adjList two_vertices_one_edge !! "B")))
  ∧ getWeight (addEdge two_vertices_one_edge "B" "A" 3).2 "A" "B" 0
    = getWeight two_vertices_one_edge "A" "B" 0
  ∧ getWeight two_vertices_one_edge "A" "B" 0 = Returns (true, 5).
Proof.
  assert ("A" ≠ "B" ∨ ("B" ≠ "A" ∧ is_Some (adjList two_vertices_one_edge !! "B")))
    as Hother by (left; discriminate).
  split_and!; [done | | by vm_compute].
  exact (addEdge_keeps_other_weights two_vertices_one_edge "B" "A" 3 "A" "B" 0 Hother).
Defined.

Lemma addEdge_new_edge_counts_witness :
  vsize (Vertices two_vertices_one_edge) ≤ INT_MAX
  ∧ "B" ∈ Vertices two_vertices_one_edge
  ∧ "A" ∈ Vertices two_vertices_one_edge
  ∧ ("A" ∉ (default [] (adjList two_vertices_one_edge !! "B")).*1)
  ∧ Z.of_nat (edge_records (adjList two_vertices_one_edge)) < INT_MAX
  ∧ edge_records (adjList (addEdge two_vertices_one_edge "B" "A" 3).2) = 2%nat
  ∧ NumEdges (addEdge two_vertices_one_edge "B" "A" 3).2 = 2.
Proof.
  assert (vsize (Vertices two_vertices_one_edge) ≤ INT_MAX) as Hsmall
    by (vm_compute; discriminate).
  assert ("B" ∈ Vertices two_vertices_one_edge) as HB by by_evaluation.
  assert ("A" ∈ Vertices two_vertices_one_edge) as HA by by_evaluation.
  assert ("A" ∉ (default [] (adjList two_vertices_one_edge !! "B")).*1) as Hnew
    by by_evaluation.
  assert (Z.of_nat (edge_records (adjList two_vertices_one_edge)) < INT_MAX)
    as Hfew by (vm_compute; reflexivity).
  destruct (addEdge_new_edge_counts two_vertices_one_edge "B" "A" 3
              Hsmall HB HA Hnew) as [Hrecords Hcount].
  split_and!; [done | done | done | done | done | |].
  - rewrite Hrecords. by vm_compute.
  - rewrite (Hcount Hfew). by vm_compute.
Defined.


Lemma addEdge_different_sources_commute_witness :
  "A" ≠ "B"
  ∧ (addEdge (addEdge two_vertices_one_edge "A" "A" 1).2 "B" "A" 2).2
    = (addEdge (addEdge two_vertices_one_edge "B" "A" 2).2 "A" "A" 1).2
  ∧ map_to_list
      (adjList (addEdge (addEdge two_vertices_one_edge "B" "A" 2).2 "A" "A" 1).2)
    = [("A", [("B", 5); ("A", 1)]); ("B", [("A", 2)])].
Proof.
  assert ("A" ≠ "B") as Hne by discriminate.
  destruct (addEdge_different_sources_commute two_vertices_one_edge
              "A" "A" 1 "B" "A" 2 Hne) as (Hstate & _ & _).
  split_and!; [done | exact Hstate | by vm_compute].
Defined.

Lemma getWeight_returns_last_weight_witness :
  let pre : list (op string Z) :=
    [AddVertex "A"; AddVertex "B"; AddEdge "A" "B" 1] in
  let post : list (op string Z) :=
    [AddVertex "C"; AddEdge "A" "C" 2; AddEdge "B" "A" 3] in
  vsize (Vertices (run (pre ++ AddEdge "A" "B" 5 :: post))) ≤ INT_MAX
  ∧ (call (run pre) (AddEdge "A" "B" 5)).1 = true
  ∧ (∀ w', AddEdge "A" "B" w' ∉ post)
  ∧ getWeight (run (pre ++ AddEdge "A" "B" 5 :: post)) "A" "B" 0
    = Returns (true, 5).
Proof.
  intros pre post.
  assert (vsize (Vertices (run (pre ++ AddEdge "A" "B" 5 :: post))) ≤ INT_MAX)
    as Hsmall by (vm_compute; discriminate).
  assert ((call (run pre) (AddEdge "A" "B" 5)).1 = true) as Hcall
    by (by vm_compute).
  assert (∀ w', AddEdge "A" "B" w' ∉ post) as Hlast.
  { intros w' Hin. unfold post in Hin.
    repeat (apply elem_of_cons in Hin as [Heq|Hin]; [discriminate Heq|]).
    by apply elem_of_nil in Hin. }
  split_and!; [done | done | done |].
  exact (getWeight_returns_last_weight pre post "A" "B" 5 0 Hsmall Hcall Hlast).
Defined.

Lemma capacity_is_not_enforced_witness :
  NoDup ["A"; "B"; "C"]
  ∧ added_from (graph_of_capacity 2 : graph string Z)
               (AddVertex <$> ["A"; "B"; "C"])
    = ["A"; "B"; "C"].
Proof.
  assert (NoDup ["A"; "B"; "C"]) as Hnd by by_evaluation.
  split; [done|].
  exact (proj1 (capacity_is_not_enforced (WeightT := Z) 2 ["A"; "B"; "C"] Hnd)).
Defined.

Lemma neighbors_are_the_destinations_with_a_weight_witness :
  let ops : list (op Z Z) :=
    [AddVertex 1; AddVertex 2; AddVertex 3;
     AddEdge 2 3 7; AddEdge 2 1 8; AddEdge 2 3 9] in
  vsize (Vertices (run ops)) ≤ INT_MAX
  ∧ succeeded_as_source ops 2
  ∧ neighbors Z.ltb (run ops) 2 = Returns [1; 3]
  ∧ ∃ S es,
      neighbors Z.ltb (run ops) 2 = Returns S
      ∧ adjList (run ops) !! 2 = Some es
      ∧ ascending Z.ltb S ∧ NoDup S ∧ length S = length es
      ∧ ∀ x, x ∈ S
            ↔ ∃ w, ∀ weight, getWeight (run ops) 2 x weight = Returns (true, w).
Proof.
  intros ops.
  assert (vsize (Vertices (run ops)) ≤ INT_MAX) as Hsmall
    by (vm_compute; discriminate).
  assert (succeeded_as_source ops 2) as Hsource.
  { exists [AddVertex 1; AddVertex 2; AddVertex 3], 3, 7,
      [AddEdge 2 1 8; AddEdge 2 3 9]. split; [done | by vm_compute]. }
  assert (∀ x, (x <? x) = false) as Hirrefl by (intros; apply Z.ltb_irrefl).
  assert (∀ x y z, (x <? y) = true → (y <? z) = true → (x <? z) = true) as Htrans
    by (intros x y z; rewrite !Z.ltb_lt; lia).
  assert (∀ x y, (x <? y) = false → (y <? x) = false → x = y) as Htotal
    by (intros x y; rewrite !Z.ltb_ge; lia).
  split_and!; [done | done | by vm_compute |].
  exact (neighbors_are_the_destinations_with_a_weight Z.ltb Hirrefl Htrans Htotal
           ops 2 Hsmall Hsource).
Defined.

